(** * Item allocation: the continuous and the 0-1 knapsack solvers

    A shallow embedding of the Typescript Math Toolkit item allocation
    classes: [AllocatableItem], [DefaultItemStrategy], [ItemAllocation]
    (continuous knapsack, Dantzig's greedy rule) and [Knapsack] (0-1
    knapsack, dynamic programming with backtracking).

    Modelling conventions.
    - A number is [NaN], an infinity, or a finite value.  Finite values are
      exact rationals kept in lowest terms: rounding and the sign of zero
      are not modelled.
    - Items are objects shared by reference.  A reference is a [nat], the
      store maps every reference to the item it denotes, and an allocator
      holds a list of references.  Writing a solution field updates the
      store, so every alias of the item sees it.
    - A call that would raise a [TypeError] returns [TypeError]; a [while]
      loop runs on fuel and returns [OutOfFuel] when the fuel is spent
      before the loop condition fails. *)

From Stdlib Require Import QArith Qround Qcanon Lqa Lia Bool String.
From stdpp Require Import base list sorting relations.
Close Scope Q_scope.

(** ** Numbers *)

Inductive number : Type :=
| NaN
| PosInf
| NegInf
| Fin (q : Q).

Definition zero : number := Fin 0.
Definition one : number := Fin 1.

Definition of_nat (n : nat) : number := Fin (inject_Z (Z.of_nat n)).

Definition is_nan (a : number) : bool :=
  match a with NaN => true | _ => false end.

Definition is_finite (a : number) : bool :=
  match a with Fin _ => true | _ => false end.

(** The sign of a number that is not [NaN]: [Lt] negative, [Eq] zero,
    [Gt] positive. *)
Definition sgn (a : number) : comparison :=
  match a with
  | Fin q => (q ?= 0)%Q
  | NegInf => Lt
  | _ => Gt
  end.

Definition sgn_mul (s t : comparison) : comparison :=
  match s, t with
  | Eq, _ | _, Eq => Eq
  | Lt, Lt | Gt, Gt => Gt
  | _, _ => Lt
  end.

Definition of_sgn (s : comparison) : number :=
  match s with Eq => NaN | Gt => PosInf | Lt => NegInf end.

Definition num_neg (a : number) : number :=
  match a with
  | NaN => NaN
  | PosInf => NegInf
  | NegInf => PosInf
  | Fin q => Fin (Qred (- q))
  end.

Definition num_add (a b : number) : number :=
  match a, b with
  | NaN, _ | _, NaN => NaN
  | PosInf, NegInf | NegInf, PosInf => NaN
  | PosInf, _ | _, PosInf => PosInf
  | NegInf, _ | _, NegInf => NegInf
  | Fin x, Fin y => Fin (Qred (x + y))
  end.

Definition num_sub (a b : number) : number :=
  match a, b with
  | Fin x, Fin y => Fin (Qred (x - y))
  | _, _ => num_add a (num_neg b)
  end.

Definition num_mul (a b : number) : number :=
  match a, b with
  | NaN, _ | _, NaN => NaN
  | Fin x, Fin y => Fin (Qred (x * y))
  | _, _ => of_sgn (sgn_mul (sgn a) (sgn b))
  end.

Definition num_div (a b : number) : number :=
  match a, b with
  | NaN, _ | _, NaN => NaN
  | Fin x, Fin y =>
      if Qeq_bool y 0 then of_sgn (sgn a) else Fin (Qred (x / y))
  | Fin _, _ => zero
  | _, Fin y => if Qeq_bool y 0 then a else of_sgn (sgn_mul (sgn a) (sgn b))
  | _, _ => NaN
  end.

(** Comparisons; each is [false] as soon as an operand is [NaN]. *)
Definition num_lt (a b : number) : bool :=
  match a, b with
  | NaN, _ | _, NaN => false
  | Fin x, Fin y => negb (Qle_bool y x)
  | _, NegInf | PosInf, _ => false
  | _, _ => true
  end.

Definition num_eqb (a b : number) : bool :=
  match a, b with
  | Fin x, Fin y => Qeq_bool x y
  | PosInf, PosInf | NegInf, NegInf => true
  | _, _ => false
  end.

Definition num_le (a b : number) : bool := num_lt a b || num_eqb a b.
Definition num_gt (a b : number) : bool := num_lt b a.
Definition num_ge (a b : number) : bool := num_le b a.
Definition num_neqb (a b : number) : bool := negb (num_eqb a b).

(** [Math.max] and [Math.floor]. *)
Definition num_max (a b : number) : number :=
  match a, b with
  | NaN, _ | _, NaN => NaN
  | _, _ => if num_lt a b then b else a
  end.

Definition num_floor (a : number) : number :=
  match a with
  | Fin q => Fin (inject_Z (Qfloor q))
  | _ => a
  end.

(** An array index: the natural number a number denotes, if any.  Reading
    an array at anything else gives [undefined]. *)
Definition index_of (a : number) : option nat :=
  match a with
  | Fin q =>
      if Qeq_bool q (inject_Z (Qfloor q)) && (0 <=? Qfloor q)%Z
      then Some (Z.to_nat (Qfloor q)) else None
  | _ => None
  end.

(** ** Values

    What a caller can hand to a mutator or to a strategy.  [VItem r] is an
    [AllocatableItem] instance; [VOther] stands for any value of another
    type whose numeric conversion is [NaN] (the string "abc", a plain
    object).  Values of another type that convert to a number (the
    boolean [true], the string "5") and values whose conversion raises
    are outside the declared parameter types and are not represented. *)

Definition ref := nat.

Inductive jsval : Type :=
| VUndefined
| VNull
| VNum (x : number)
| VItem (r : ref)
| VOther.

Definition ToNumber (v : jsval) : number :=
  match v with
  | VNull => zero
  | VNum x => x
  | _ => NaN
  end.

Definition is_null (v : jsval) : bool :=
  match v with VNull => true | _ => false end.

(** The global [isNaN] and [isFinite] convert their argument first. *)
Definition isNaN (v : jsval) : bool := is_nan (ToNumber v).
Definition isFinite (v : jsval) : bool := is_finite (ToNumber v).

(** [value !== null && !isNaN(value) && isFinite(value)] *)
Definition is_valid (v : jsval) : bool :=
  negb (is_null v) && negb (isNaN v) && isFinite v.

(** [value !== null && !isNaN(value) && isFinite(value) && value >= 0] *)
Definition is_valid_nonneg (v : jsval) : bool :=
  is_valid v && num_ge (ToNumber v) zero.

(** ** Outcomes of a call *)

Inductive result (A : Type) : Type :=
| Ok (a : A)
| TypeError
| OutOfFuel.
Arguments Ok {A} a.
Arguments TypeError {A}.
Arguments OutOfFuel {A}.

#[export] Instance result_ret : MRet result := fun A a => Ok a.
#[export] Instance result_bind : MBind result := fun A B f m =>
  match m with
  | Ok a => f a
  | TypeError => TypeError
  | OutOfFuel => OutOfFuel
  end.

(** ** AllocatableItem *)

Module Item.

Record t : Type := mk {
  _capacity : number;
  _payoff : number;
  _value : number;
  _solutionCapacity : number;
  _capacityRisk : number;
  _payoffRisk : number;
  name : string;
  id : number
}.

(** [new TSMT$AllocatableItem()] *)
Definition new : t := mk zero zero zero zero zero zero EmptyString zero.

Definition capacity (this : t) : number := _capacity this.
Definition payoff (this : t) : number := _payoff this.
Definition solutionValue (this : t) : number := _value this.
Definition solutionCapacity (this : t) : number := _solutionCapacity this.
Definition capacityRisk (this : t) : number := _capacityRisk this.
Definition payoffRisk (this : t) : number := _payoffRisk this.

(** The mutators.  The fields are declared [number]; a value that passes
    the guard is a number (lemma [is_valid_number]), and [ToNumber] reads
    it back. *)
Definition set_capacity (this : t) (value : jsval) : t :=
  mk (if is_valid_nonneg value then ToNumber value else _capacity this)
     (_payoff this) (_value this) (_solutionCapacity this)
     (_capacityRisk this) (_payoffRisk this) (name this) (id this).

Definition set_payoff (this : t) (value : jsval) : t :=
  mk (_capacity this)
     (if is_valid_nonneg value then ToNumber value else _payoff this)
     (_value this) (_solutionCapacity this)
     (_capacityRisk this) (_payoffRisk this) (name this) (id this).

Definition set_solutionValue (this : t) (v : jsval) : t :=
  mk (_capacity this) (_payoff this)
     (if is_valid_nonneg v then ToNumber v else _value this)
     (_solutionCapacity this)
     (_capacityRisk this) (_payoffRisk this) (name this) (id this).

Definition set_solutionCapacity (this : t) (value : jsval) : t :=
  mk (_capacity this) (_payoff this) (_value this)
     (if is_valid value then ToNumber value else _solutionCapacity this)
     (_capacityRisk this) (_payoffRisk this) (name this) (id this).

Definition set_capacityRisk (this : t) (value : jsval) : t :=
  mk (_capacity this) (_payoff this) (_value this) (_solutionCapacity this)
     (if is_valid value then ToNumber value else _capacityRisk this)
     (_payoffRisk this) (name this) (id this).

Definition set_payoffRisk (this : t) (value : jsval) : t :=
  mk (_capacity this) (_payoff this) (_value this) (_solutionCapacity this)
     (_capacityRisk this)
     (if is_valid value then ToNumber value else _payoffRisk this)
     (name this) (id this).

Definition clone (this : t) : t :=
  let item := new in
  let item := set_capacity item (VNum (_capacity this)) in
  let item := set_payoff item (VNum (_payoff this)) in
  let item := set_capacityRisk item (VNum (_capacityRisk this)) in
  set_payoffRisk item (VNum (_payoffRisk this)).

(** What the mutators maintain: every field is finite, and capacity,
    payoff and solution value are not negative. *)
Definition finite_nonneg (a : number) : Prop :=
  is_finite a = true /\ num_ge a zero = true.

Record wf (this : t) : Prop := {
  wf_capacity : finite_nonneg (_capacity this);
  wf_payoff : finite_nonneg (_payoff this);
  wf_value : finite_nonneg (_value this);
  wf_solutionCapacity : is_finite (_solutionCapacity this) = true;
  wf_capacityRisk : is_finite (_capacityRisk this) = true;
  wf_payoffRisk : is_finite (_payoffRisk this) = true
}.

End Item.

(** ** The store of items *)

Definition store := ref -> Item.t.

Definition update (h : store) (r : ref) (it : Item.t) : store :=
  fun r' => if Nat.eqb r' r then it else h r'.

(** [item.solutionCapacity = x] and [item.solutionValue = x] on the item
    that [r] refers to. *)
Definition assign_solutionCapacity (h : store) (r : ref) (x : number) : store :=
  update h r (Item.set_solutionCapacity (h r) (VNum x)).

Definition assign_solutionValue (h : store) (r : ref) (x : number) : store :=
  update h r (Item.set_solutionValue (h r) (VNum x)).

(** [value !== null && value instanceof TSMT$AllocatableItem] *)
Definition isValidItem (value : jsval) : bool :=
  negb (is_null value) && match value with VItem _ => true | _ => false end.

(** ** Transformed item properties and the default strategy *)

Module Props.
Record t : Type := mk {
  capacity : number;
  payoff : number;
  rate : number;
  value : number
}.
End Props.

(** The optional property bag handed to a strategy; [None] is [null]. *)
Definition property_bag := list (string * number).

Module DefaultItemStrategy.

(** [transform(item, data)]: the record, or nothing ([undefined]) when the
    argument is not an item.  The store is threaded through the call so
    that its effect on the items can be stated. *)
Definition transform (h : store) (item : jsval) (data : option property_bag)
  : option Props.t * store :=
  if negb (is_null item) && match item with VItem _ => true | _ => false end
  then
    match item with
    | VItem r =>
        let it := h r in
        (Some (Props.mk (Item.capacity it) (Item.payoff it)
                 (num_div (Item.payoff it) (Item.capacity it))
                 (num_mul (num_div (Item.solutionCapacity it) (Item.capacity it))
                    (Item.payoff it))), h)
    | _ => (None, h)
    end
  else (None, h).

End DefaultItemStrategy.

(** ** Strategy objects

    A strategy is an object; what matters of it is where its [transform]
    method lives: among its own properties, or further up its prototype
    chain (where a class puts its methods).  The chain ends in
    [Object.prototype], which has [hasOwnProperty] and no [transform]. *)

Definition transform_fn : Type :=
  store -> jsval -> option property_bag -> option Props.t.

Inductive object : Type :=
| Object (own : list (string * transform_fn)) (proto : prototype)
with prototype : Type :=
| ObjectPrototype
| Proto (o : object).

Definition own_property (k : string) (own : list (string * transform_fn))
  : option transform_fn :=
  snd <$> List.find (fun kv => String.eqb k (fst kv)) own.

(** [o.hasOwnProperty(k)] *)
Definition hasOwnProperty (o : object) (k : string) : bool :=
  match o with
  | Object own _ =>
      match own_property k own with Some _ => true | None => false end
  end.

(** Property lookup [o.k] walks the prototype chain. *)
Fixpoint get (o : object) (k : string) : option transform_fn :=
  match o with
  | Object own proto =>
      match own_property k own with
      | Some f => Some f
      | None =>
          match proto with
          | Proto p => get p k
          | ObjectPrototype => None
          end
      end
  end.

(** The value exposes a [transform] operation. *)
Definition exposes_transform (o : object) : Prop :=
  is_Some (get o "transform"%string).

(** [class TSMT$DefaultItemStrategy] and [new TSMT$DefaultItemStrategy()]:
    the method is a property of the class prototype, the instance has no
    property of its own. *)
Definition DefaultItemStrategy_prototype : object :=
  Object [("transform"%string,
           fun h item data => fst (DefaultItemStrategy.transform h item data))]
         ObjectPrototype.

Definition new_DefaultItemStrategy : object :=
  Object [] (Proto DefaultItemStrategy_prototype).

(** What a caller can pass where a strategy is expected. *)
Inductive strategy_value : Type :=
| SNull
| SUndefined
| SObject (o : object).

(** ** Array.prototype.sort

    The runtime's sort, modelled as a stable insertion sort: each element
    in turn is moved left past the elements the comparison function puts
    after it.  The comparison function can raise, and then so does the
    sort. *)

Section Sort.
Context {A : Type} (comparefn : A -> A -> result Z).

(** [sorted] holds the part already in order, last element first. *)
Fixpoint sort_insert (element : A) (sorted : list A) : result (list A) :=
  match sorted with
  | [] => Ok [element]
  | tmp :: rest =>
      order ← comparefn tmp element;
      if (0 <? order)%Z
      then rest' ← sort_insert element rest; Ok (tmp :: rest')
      else Ok (element :: tmp :: rest)
  end.

Fixpoint sort_from (sorted : list A) (a : list A) : result (list A) :=
  match a with
  | [] => Ok (reverse sorted)
  | element :: a' =>
      sorted' ← sort_insert element sorted;
      sort_from sorted' a'
  end.

Definition sort (a : list A) : result (list A) := sort_from [] a.

End Sort.

(** ** ItemAllocation: the continuous allocator *)

Module ItemAllocation.

Record t : Type := mk {
  _strategy : option object;
  _items : list ref;
  _capacity : number;
  _data : option property_bag;
  _solutionCapacity : number;
  _solutionPayoff : number
}.

(** [clear()], and the constructor, which calls it. *)
Definition clear (this : t) : t := mk None [] zero None zero zero.
Definition new : t := mk None [] zero None zero zero.

Definition itemCount (this : t) : nat := length (_items this).
Definition solutionCapacity (this : t) : number := _solutionCapacity this.
Definition payoff (this : t) : number := _solutionPayoff this.
Definition capacity (this : t) : number := _capacity this.

Definition set_capacity (this : t) (value : jsval) : t :=
  mk (_strategy this) (_items this)
     (if is_valid_nonneg value then ToNumber value else _capacity this)
     (_data this) (_solutionCapacity this) (_solutionPayoff this).

(** The [data] mutator keeps a copy of an object and ignores [null]. *)
Definition set_data (this : t) (value : option property_bag) : t :=
  match value with
  | Some bag =>
      mk (_strategy this) (_items this) (_capacity this) (Some bag)
         (_solutionCapacity this) (_solutionPayoff this)
  | None => this
  end.

(** [value !== null && value.hasOwnProperty('transform')] *)
Definition isValidStrategy (value : strategy_value) : result bool :=
  match value with
  | SNull => Ok false
  | SUndefined => TypeError
  | SObject o => Ok (hasOwnProperty o "transform"%string)
  end.

Definition addStrategy (this : t) (strategy : strategy_value) : result t :=
  valid ← isValidStrategy strategy;
  if (valid : bool)
  then Ok (mk (match strategy with SObject o => Some o | _ => None end)
              (_items this) (_capacity this) (_data this)
              (_solutionCapacity this) (_solutionPayoff this))
  else Ok this.

Definition addItem (this : t) (item : jsval) : t :=
  match item with
  | VItem r =>
      if isValidItem item
      then mk (_strategy this) (_items this ++ [r]) (_capacity this)
              (_data this) (_solutionCapacity this) (_solutionPayoff this)
      else this
  | _ => this
  end.

(** The scan of [removeItem]: drop the first reference identical to
    [item]. *)
Fixpoint remove_first (item : ref) (items : list ref) : list ref :=
  match items with
  | [] => []
  | r :: rest => if Nat.eqb item r then rest else r :: remove_first item rest
  end.

Definition removeItem (this : t) (item : jsval) : t :=
  match item with
  | VItem r =>
      mk (_strategy this) (remove_first r (_items this)) (_capacity this)
         (_data this) (_solutionCapacity this) (_solutionPayoff this)
  | _ => this
  end.

(** [strategy.transform(item, data)] followed by the first read of a
    property of the record: a missing method or a missing record raises. *)
Definition transformed (strategy : object) (h : store) (item : ref)
    (data : option property_bag) : result Props.t :=
  match get strategy "transform"%string with
  | Some f =>
      match f h (VItem item) data with
      | Some p => Ok p
      | None => TypeError
      end
  | None => TypeError
  end.

(** The comparison function of the initial sort. *)
Definition by_rate (strategy : object) (h : store)
    (data : option property_bag) (item1 item2 : ref) : result Z :=
  t1 ← transformed strategy h item1 data;
  t2 ← transformed strategy h item2 data;
  let r1 := Props.rate t1 in
  let r2 := Props.rate t2 in
  Ok (if num_gt r1 r2 then (-1)%Z else if num_lt r1 r2 then 1%Z else 0%Z).

Definition with_solution (this : t) (solutionCapacity solutionPayoff : number) : t :=
  mk (_strategy this) (_items this) (_capacity this) (_data this)
     solutionCapacity solutionPayoff.

(** The greedy loop over the sorted items still to visit. *)
Fixpoint greedy (strategy : object) (items : list ref)
    (this : t) (h : store) (allocation : list ref)
  : result (list ref * t * store) :=
  match items with
  | [] => Ok (allocation, this, h)
  | item :: rest =>
      let slack := num_sub (_capacity this) (_solutionCapacity this) in
      if num_le slack zero then Ok (allocation, this, h)
      else
        p ← transformed strategy h item (_data this);
        if num_ge (Props.capacity p) slack then
          let h := assign_solutionCapacity h item slack in
          let h := assign_solutionValue h item (num_mul (Props.rate p) slack) in
          let this :=
            with_solution this (_capacity this)
              (num_add (_solutionPayoff this) (Item.solutionValue (h item))) in
          Ok (allocation ++ [item], this, h)
        else
          let h := assign_solutionCapacity h item (Props.capacity p) in
          let h := assign_solutionValue h item (Props.payoff p) in
          let this :=
            with_solution this
              (num_add (_solutionCapacity this) (Props.capacity p))
              (num_add (_solutionPayoff this) (Props.payoff p)) in
          greedy strategy rest this h (allocation ++ [item])
  end.

Definition allocate (this : t) (h : store) : result (list ref * t * store) :=
  let itemCount := length (_items this) in
  if Nat.eqb itemCount 0 then Ok ([], this, h)
  else if num_eqb (_capacity this) zero then Ok ([], this, h)
  else
    let strategy :=
      match _strategy this with
      | Some s => s
      | None => new_DefaultItemStrategy
      end in
    let this :=
      mk (Some strategy) (_items this) (_capacity this) (_data this)
         (_solutionCapacity this) (_solutionPayoff this) in
    if Nat.eqb itemCount 1 then
      match _items this with
      | item :: _ =>
          p ← transformed strategy h item (_data this);
          let f :=
            if num_le (Props.capacity p) (_capacity this) then one
            else num_div (_capacity this) (Props.capacity p) in
          let this :=
            with_solution this (num_mul f (Props.capacity p))
              (num_mul f (Props.payoff p)) in
          let h := assign_solutionValue h item (_solutionPayoff this) in
          let h := assign_solutionCapacity h item (_solutionCapacity this) in
          Ok ([item], this, h)
      | [] => TypeError
      end
    else
      items ← sort (by_rate strategy h (_data this)) (_items this);
      let this :=
        mk (_strategy this) items (_capacity this) (_data this)
           zero (_solutionPayoff this) in
      greedy strategy items this h [].

End ItemAllocation.

(** ** The value table *)

Abbreviation table := (list (list number)).

(** Modelled from the spec: [TSMT$MatrixFactory.create(rows, cols, v)] is
    not part of the sources at hand; it builds a table of [rows] rows and
    [cols] columns filled with [v]. *)
Definition create (rows cols : nat) (v : number) : table :=
  replicate rows (replicate cols v).

(** [row[c]], where the column [c] is any number.  A column that is not
    an index of the row reads [undefined], which the arithmetic and the
    comparisons of this code treat as they treat [NaN]. *)
Definition read_row (row : list number) (c : number) : number :=
  match index_of c with
  | Some j => default NaN (row !! j)
  | None => NaN
  end.

(** [value[i][c]].  The row [i] is a row of the table wherever this is
    used. *)
Definition read (value : table) (i : nat) (c : number) : number :=
  match value !! i with
  | Some row => read_row row c
  | None => NaN
  end.

(** [value[i][c] = x] *)
Definition write (value : table) (i c : nat) (x : number) : table :=
  match value !! i with
  | Some row => <[i := <[c := x]> row]> value
  | None => value
  end.

(** ** Knapsack: the binary allocator *)

Module Knapsack.

(** [_capacity] only ever holds what [clear] and the mutator put there: a
    non-negative integer, kept here as a [nat]. *)
Record t : Type := mk {
  _items : list ref;
  _capacity : nat;
  _solutionCapacity : number;
  _solutionPayoff : number
}.

Definition clear (this : t) : t := mk [] 0 zero zero.
Definition new : t := mk [] 0 zero zero.

Definition itemCount (this : t) : nat := length (_items this).
Definition solutionCapacity (this : t) : number := _solutionCapacity this.
Definition payoff (this : t) : number := _solutionPayoff this.
Definition capacity (this : t) : number := of_nat (_capacity this).

(** [Math.floor] of a number that is finite and not negative, as a [nat]. *)
Definition floor_nat (a : number) : nat :=
  match num_floor a with
  | Fin q => Z.to_nat (Qfloor q)
  | _ => 0
  end.

Definition set_capacity (this : t) (value : jsval) : t :=
  let c := if is_valid_nonneg value then ToNumber value else capacity this in
  mk (_items this) (floor_nat c) (_solutionCapacity this) (_solutionPayoff this).

Definition addItem (this : t) (item : jsval) : t :=
  match item with
  | VItem r =>
      if isValidItem item
      then mk (_items this ++ [r]) (_capacity this)
              (_solutionCapacity this) (_solutionPayoff this)
      else this
  | _ => this
  end.

Definition removeItem (this : t) (item : jsval) : t :=
  match item with
  | VItem r =>
      mk (ItemAllocation.remove_first r (_items this)) (_capacity this)
         (_solutionCapacity this) (_solutionPayoff this)
  | _ => this
  end.

(** The body of the inner loop: the cell of row [i], column [capacity]. *)
Definition fill_cell (item : Item.t) (i : nat) (value : table) (capacity : nat)
  : table :=
  if num_le (Item.capacity item) (of_nat capacity) then
    write value i capacity
      (num_max
         (num_add (Item.payoff item)
            (read value (i - 1) (num_sub (of_nat capacity) (Item.capacity item))))
         (read value (i - 1) (of_nat capacity)))
  else
    write value i capacity (read value (i - 1) (of_nat capacity)).

(** The body of the outer loop: row [i], for the item at [i - 1]. *)
Definition fill_row (items : list ref) (h : store) (cols : nat)
    (value : table) (i : nat) : result table :=
  match items !! (i - 1) with
  | Some r => Ok (fold_left (fill_cell (h r) i) (seq 1 (cols - 1)) value)
  | None => if Nat.ltb 1 cols then TypeError else Ok value
  end.

Fixpoint fill_rows (items : list ref) (h : store) (cols : nat)
    (value : table) (rows : list nat) : result table :=
  match rows with
  | [] => Ok value
  | i :: rows' =>
      value' ← fill_row items h cols value i;
      fill_rows items h cols value' rows'
  end.

(** The state of the backtracking loop. *)
Record walk : Type := Walk {
  w_i : nat;
  w_capacity : number;
  w_curValue : number;
  w_store : store;
  w_allocation : list ref
}.

(** One turn of the loop [while (curValue > 0)]. *)
Definition step (value : table) (items : list ref) (w : walk) : result walk :=
  match w_i w with
  | 0 => TypeError
  | S i' =>
      if num_neqb (read value i' (w_capacity w)) (w_curValue w) then
        match items !! i' with
        | Some item =>
            let h := w_store w in
            let h := assign_solutionCapacity h item (Item.capacity (h item)) in
            let h := assign_solutionValue h item (Item.payoff (h item)) in
            let capacity := num_sub (w_capacity w) (Item.capacity (h item)) in
            Ok (Walk i' capacity (read value i' capacity) h
                  (w_allocation w ++ [item]))
        | None => TypeError
        end
      else
        Ok (Walk i' (w_capacity w) (read value i' (w_capacity w))
              (w_store w) (w_allocation w))
  end.

Fixpoint backtrack (fuel : nat) (value : table) (items : list ref) (w : walk)
  : result walk :=
  if num_gt (w_curValue w) zero then
    match fuel with
    | 0 => OutOfFuel
    | S fuel' =>
        w' ← step value items w;
        backtrack fuel' value items w'
    end
  else Ok w.

Definition allocate (fuel : nat) (this : t) (h : store)
  : result (list ref * t * store) :=
  let itemCount := length (_items this) in
  if Nat.eqb itemCount 0 then Ok ([], this, h)
  else if Nat.eqb (_capacity this) 0 then Ok ([], this, h)
  else if Nat.eqb itemCount 1 then
    match _items this with
    | item :: _ =>
        if num_le (Item.capacity (h item)) (capacity this) then
          let h := assign_solutionCapacity h item (Item.capacity (h item)) in
          let h := assign_solutionValue h item (Item.payoff (h item)) in
          Ok ([item], this, h)
        else Ok ([], this, h)
    | [] => TypeError
    end
  else
    let rows := itemCount + 1 in
    let cols := _capacity this + 1 in
    let value := create rows cols zero in
    value ← fill_rows (_items this) h cols value (seq 1 (rows - 1));
    let this :=
      mk (_items this) (_capacity this) (_solutionCapacity this)
         (read value (rows - 1) (of_nat (cols - 1))) in
    w ← backtrack fuel value (_items this)
          (Walk (rows - 1) (of_nat (cols - 1)) (_solutionPayoff this) h []);
    Ok (w_allocation w, this, w_store w).

End Knapsack.

(** * Vocabulary of the statements *)

(** The inputs a mutator accepts: a finite number, and where the attribute
    must not be negative, a finite number that is not negative. *)
Definition finite_value (v : jsval) : Prop := exists q, v = VNum (Fin q).
Definition nonneg_value (v : jsval) : Prop :=
  exists q, v = VNum (Fin q) /\ (0 <= q)%Q.

(** A mutator [set] of an attribute read by [get], accepting the inputs
    [ok]: an accepted input is a number [x], and [get] returns [post x]
    afterwards; any other input leaves the object as it was. *)
Definition mutator {S : Type} (ok : jsval -> Prop) (post : number -> number)
    (set : S -> jsval -> S) (get : S -> number) : Prop :=
  forall (s : S) (v : jsval),
    (ok v -> exists x, v = VNum x /\ get (set s v) = post x) /\
    (~ ok v -> set s v = s).

(** A strategy written as an object literal: [{transform: f}]. *)
Definition literal_strategy (f : transform_fn) : object :=
  Object [("transform"%string, f)] ObjectPrototype.

(** The fraction of a single item that fits. *)
Definition fraction (capacity w : number) : number :=
  if num_le w capacity then one else num_div capacity w.


(** Items, stores and allocators built through the public interface. *)
Definition item_with (capacity payoff : Q) : Item.t :=
  Item.set_payoff (Item.set_capacity Item.new (VNum (Fin capacity)))
    (VNum (Fin payoff)).

Definition store_of (items : list Item.t) : store :=
  fun r => default Item.new (items !! r).

Definition continuous_of (capacity : Q) (n : nat) : ItemAllocation.t :=
  fold_left ItemAllocation.addItem (VItem <$> seq 0 n)
    (ItemAllocation.set_capacity ItemAllocation.new (VNum (Fin capacity))).

Definition binary_of (capacity : Q) (n : nat) : Knapsack.t :=
  fold_left Knapsack.addItem (VItem <$> seq 0 n)
    (Knapsack.set_capacity Knapsack.new (VNum (Fin capacity))).

(** The total of an attribute over a sequence of items. *)
Definition total (attr : Item.t -> number) (h : store) (items : list ref)
  : number :=
  foldr (fun r acc => num_add (attr (h r)) acc) zero items.

(** The rate a strategy gives an item, as the initial sort reads it. *)
Definition rate_at (strategy : object) (h : store) (data : option property_bag)
    (item : ref) : number :=
  match ItemAllocation.transformed strategy h item data with
  | Ok p => Props.rate p
  | _ => NaN
  end.

(** The strategy in effect during [allocate]. *)
Definition strategy_in_effect (this : ItemAllocation.t) : object :=
  match ItemAllocation._strategy this with
  | Some s => s
  | None => new_DefaultItemStrategy
  end.

(** A strategy whose [transform] returns a record for every item. *)
Definition total_strategy (strategy : object) : Prop :=
  forall h item data, exists p,
    ItemAllocation.transformed strategy h item data = Ok p.

(** Insertion by rate, without the outcomes: the element moves past the
    elements of smaller rate. *)
Fixpoint insert_by (rate : ref -> number) (element : ref) (sorted : list ref)
  : list ref :=
  match sorted with
  | [] => [element]
  | tmp :: rest =>
      if num_lt (rate tmp) (rate element)
      then tmp :: insert_by rate element rest
      else element :: tmp :: rest
  end.

Definition ascending (rate : ref -> number) : list ref -> Prop :=
  StronglySorted (fun a b => num_le (rate a) (rate b) = true).

Definition descending (rate : ref -> number) : list ref -> Prop :=
  StronglySorted (fun a b => num_ge (rate a) (rate b) = true).

(** The recurrence of the value table: the cell of an item at column [c],
    from the row before. *)
Definition cell_value (item : Item.t) (prev : list number) (c : nat) : number :=
  if num_le (Item.capacity item) (of_nat c) then
    num_max
      (num_add (Item.payoff item)
         (read_row prev (num_sub (of_nat c) (Item.capacity item))))
      (read_row prev (of_nat c))
  else read_row prev (of_nat c).

(** The row of an item, from the row before: columns 1 to [cols - 1] are
    assigned in turn, column 0 keeps its 0. *)
Definition next_row (cols : nat) (item : Item.t) (prev : list number)
  : list number :=
  fold_left (fun row c => <[c := cell_value item prev c]> row)
    (seq 1 (cols - 1)) (replicate cols zero).

(** Row [i] of the value table of a sequence of items. *)
Fixpoint row_at (cols : nat) (items : list Item.t) (i : nat) : list number :=
  match i with
  | 0 => replicate cols zero
  | S i' =>
      match items !! i' with
      | Some item => next_row cols item (row_at cols items i')
      | None => replicate cols zero
      end
  end.

(** One turn of the backtracking loop: the condition holds and the body
    runs. *)
Definition turn (value : table) (items : list ref) (w w' : Knapsack.walk)
  : Prop :=
  num_gt (Knapsack.w_curValue w) zero = true /\
  Knapsack.step value items w = Ok w'.

(** What the claims about the binary allocator assume of the items: the
    capacity of each is a natural number and its payoff is finite and not
    negative. *)
Definition integral_items (h : store) (items : list ref) : Prop :=
  Forall (fun r => (exists w : nat, Item.capacity (h r) = of_nat w) /\
                   Item.finite_nonneg (Item.payoff (h r))) items.

(** The table of [allocate] once the rows 1 to [k] are filled: the rows
    up to [k] are those of [row_at], the rows below are still 0. *)
Definition filled_upto (items : list ref) (h : store) (cols : nat)
    (k : nat) (value : table) : Prop :=
  length value = S (length items) /\
  forall i, i <= length items ->
    value !! i =
      Some (if bool_decide (i <= k) then row_at cols (h <$> items) i
            else replicate cols zero).

(** The cell of row [i] and column [c] of the value table. *)
Definition entry (cols : nat) (items : list Item.t) (i c : nat) : number :=
  read_row (row_at cols items i) (of_nat c).

(** A finite number in lowest terms that is not negative. *)
Definition canonical_nonneg (a : number) : Prop :=
  exists q, a = Fin (Qred q) /\ (0 <= q)%Q.

(** What holds of every state of the backtracking loop over the table
    built from the store [h0]: the row is a row of the table, the column
    is a column of the table, the current value is the cell they
    designate, and the capacities and payoffs of the items are those the
    table was built from. *)
Definition walk_inv (h0 : store) (items : list ref) (cols : nat)
    (w : Knapsack.walk) : Prop :=
  Knapsack.w_i w <= length items /\
  (exists c, c < cols /\ Knapsack.w_capacity w = of_nat c /\
     Knapsack.w_curValue w = entry cols (h0 <$> items) (Knapsack.w_i w) c) /\
  (forall r, Item.capacity (Knapsack.w_store w r) = Item.capacity (h0 r) /\
             Item.payoff (Knapsack.w_store w r) = Item.payoff (h0 r)).

(** The items of a collection at given positions. *)
Definition at_positions (items : list ref) (positions picked : list nat) : Prop :=
  Forall2 (fun p r => items !! p = Some r) positions picked.

Definition strictly_decreasing : list nat -> Prop :=
  StronglySorted (fun a b => b < a).

(** The rational a finite number stands for. *)
Definition qv (a : number) : Q :=
  match a with Fin q => q | _ => 0%Q end.

(** The capacity of an item as a natural number, and its total over a
    sequence of items. *)
Definition weight (h : store) (r : ref) : nat :=
  Knapsack.floor_nat (Item.capacity (h r)).

Definition total_weight (h : store) (items : list ref) : nat :=
  sum_list (weight h <$> items).


(** The references among the values handed to [addItem], in order. *)
Definition refs_of (values : list jsval) : list ref :=
  omap (fun v => match v with VItem r => Some r | _ => None end) values.

(** The attributes of an item that a caller sets and a solver reads. *)
Definition same_inputs (a b : Item.t) : Prop :=
  Item.capacity a = Item.capacity b /\ Item.payoff a = Item.payoff b /\
  Item.capacityRisk a = Item.capacityRisk b /\
  Item.payoffRisk a = Item.payoffRisk b /\
  Item.name a = Item.name b /\ Item.id a = Item.id b.

(** What a solver leaves in the store [h'] when it started from [h0] and
    returned [allocation] with every returned item taken whole: the
    solution fields of a returned item are its capacity and payoff, an
    item that is not returned is as it was, and no item has lost what
    the caller gave it. *)
Definition taken_whole (h0 : store) (allocation : list ref) (h' : store)
  : Prop :=
  (forall r, r ∈ allocation ->
     Item.solutionCapacity (h' r) = Item.capacity (h0 r) /\
     Item.solutionValue (h' r) = Item.payoff (h0 r)) /\
  (forall r, r ∉ allocation -> h' r = h0 r) /\
  (forall r, same_inputs (h' r) (h0 r)).




(** ** Fractional selections

    A selection gives every position of a sequence of items, each a pair
    of a capacity and a payoff, the fraction taken of the item there.
    Its weight is the capacity it consumes and its value the payoff it
    earns, the payoff of an item being linear in the fraction. *)












(** * Properties *)

(** ** Numbers *)

Lemma num_lt_Fin (x y : Q) : num_lt (Fin x) (Fin y) = true <-> (x < y)%Q.
Proof.
  simpl. rewrite negb_true_iff. split.
  - intros H. apply Qnot_le_lt. intros Hle.
    apply Qle_bool_iff in Hle. congruence.
  - intros H. destruct (Qle_bool y x) eqn:E; [|reflexivity].
    apply Qle_bool_iff in E. lra.
Qed.

Lemma num_eqb_Fin (x y : Q) : num_eqb (Fin x) (Fin y) = true <-> (x == y)%Q.
Proof. simpl. apply Qeq_bool_iff. Qed.

Lemma num_le_Fin (x y : Q) : num_le (Fin x) (Fin y) = true <-> (x <= y)%Q.
Proof.
  unfold num_le. rewrite orb_true_iff, num_lt_Fin, num_eqb_Fin. split.
  - intros [H|H]; lra.
  - intros H. destruct (Qlt_le_dec x y) as [Hlt|Hge]; [left|right]; lra.
Qed.

Lemma num_le_Fin_false (x y : Q) : num_le (Fin x) (Fin y) = false <-> (y < x)%Q.
Proof.
  rewrite <- not_true_iff_false, num_le_Fin. split; [apply Qnot_le_lt | lra].
Qed.

Lemma num_lt_Fin_false (x y : Q) : num_lt (Fin x) (Fin y) = false <-> (y <= x)%Q.
Proof.
  rewrite <- not_true_iff_false, num_lt_Fin. split; [apply Qnot_lt_le | lra].
Qed.

Lemma num_ge_zero_Fin (q : Q) : num_ge (Fin q) zero = true <-> (0 <= q)%Q.
Proof. unfold num_ge, zero. apply num_le_Fin. Qed.

Lemma finite_nonneg_Fin (a : number) :
  Item.finite_nonneg a <-> exists q, a = Fin q /\ (0 <= q)%Q.
Proof.
  unfold Item.finite_nonneg. split.
  - intros [Hf Hg]. destruct a as [| | |q]; try discriminate.
    exists q. split; [reflexivity | by apply num_ge_zero_Fin].
  - intros (q & -> & Hq). split; [reflexivity | by apply num_ge_zero_Fin].
Qed.

(** A value passes the guard exactly when it is a finite number, and the
    stricter guard when that number is not negative either. *)
Lemma is_valid_number (v : jsval) :
  is_valid v = true <-> exists q, v = VNum (Fin q).
Proof.
  unfold is_valid, isNaN, isFinite. split.
  - destruct v as [| |[| | |q]| |]; simpl; try discriminate. eauto.
  - intros [q ->]. reflexivity.
Qed.

Lemma is_valid_nonneg_number (v : jsval) :
  is_valid_nonneg v = true <-> exists q, v = VNum (Fin q) /\ (0 <= q)%Q.
Proof.
  unfold is_valid_nonneg. rewrite andb_true_iff, is_valid_number. split.
  - intros [[q ->] H]. exists q. split; [reflexivity|].
    by apply num_ge_zero_Fin.
  - intros (q & -> & H). split; [eauto|]. by apply num_ge_zero_Fin.
Qed.

(** ** The mutators *)

Lemma not_true_false (b : bool) : b <> true -> b = false.
Proof. by destruct b. Qed.

Ltac unfold_mutators :=
  cbv [Item.set_capacity Item.set_payoff Item.set_solutionValue
       Item.set_solutionCapacity Item.set_capacityRisk Item.set_payoffRisk
       Item.capacity Item.payoff Item.solutionValue Item.solutionCapacity
       Item.capacityRisk Item.payoffRisk
       Item._capacity Item._payoff Item._value Item._solutionCapacity
       Item._capacityRisk Item._payoffRisk Item.name Item.id
       ItemAllocation.set_capacity ItemAllocation.capacity
       ItemAllocation._strategy ItemAllocation._items
       ItemAllocation._capacity ItemAllocation._data
       ItemAllocation._solutionCapacity ItemAllocation._solutionPayoff].

Ltac mutator_tac guard_iff :=
  intros s v; unfold nonneg_value, finite_value; split;
  [ intros Hok; pose proof Hok as Hg; apply guard_iff in Hg;
    destruct Hok as (q & Hq);
    match type of Hq with _ /\ _ => destruct Hq as [Hq _] | _ => idtac end;
    subst v;
    eexists; split; [reflexivity|];
    unfold_mutators; rewrite Hg; reflexivity
  | intros Hno; rewrite <- guard_iff in Hno;
    apply not_true_false in Hno; destruct s;
    unfold_mutators; rewrite Hno; reflexivity ].

Lemma set_capacity_mutator :
  mutator nonneg_value id Item.set_capacity Item.capacity.
Proof. mutator_tac is_valid_nonneg_number. Qed.

Lemma set_payoff_mutator :
  mutator nonneg_value id Item.set_payoff Item.payoff.
Proof. mutator_tac is_valid_nonneg_number. Qed.

Lemma set_solutionValue_mutator :
  mutator nonneg_value id Item.set_solutionValue Item.solutionValue.
Proof. mutator_tac is_valid_nonneg_number. Qed.

Lemma set_solutionCapacity_mutator :
  mutator finite_value id Item.set_solutionCapacity Item.solutionCapacity.
Proof. mutator_tac is_valid_number. Qed.

Lemma set_capacityRisk_mutator :
  mutator finite_value id Item.set_capacityRisk Item.capacityRisk.
Proof. mutator_tac is_valid_number. Qed.

Lemma set_payoffRisk_mutator :
  mutator finite_value id Item.set_payoffRisk Item.payoffRisk.
Proof. mutator_tac is_valid_number. Qed.

Lemma continuous_set_capacity_mutator :
  mutator nonneg_value id ItemAllocation.set_capacity ItemAllocation.capacity.
Proof. mutator_tac is_valid_nonneg_number. Qed.

Lemma Qfloor_nonneg (q : Q) : (0 <= q)%Q -> (0 <= Qfloor q)%Z.
Proof.
  intros H. change 0%Z with (Qfloor 0). by apply Qfloor_resp_le.
Qed.

Lemma floor_nat_of_nat (n : nat) : Knapsack.floor_nat (of_nat n) = n.
Proof.
  unfold Knapsack.floor_nat, of_nat, num_floor.
  rewrite !Qfloor_Z. apply Nat2Z.id.
Qed.

Lemma of_nat_floor_nat (q : Q) :
  (0 <= q)%Q -> of_nat (Knapsack.floor_nat (Fin q)) = num_floor (Fin q).
Proof.
  intros H. unfold Knapsack.floor_nat, of_nat, num_floor.
  rewrite Qfloor_Z, Z2Nat.id; [reflexivity|].
  by apply Qfloor_nonneg.
Qed.

(** The binary allocator keeps the floor of an accepted capacity. *)
Lemma binary_set_capacity_mutator :
  mutator nonneg_value num_floor Knapsack.set_capacity Knapsack.capacity.
Proof.
  intros s v. unfold nonneg_value. split.
  - intros Hok. pose proof Hok as Hg. apply is_valid_nonneg_number in Hg.
    destruct Hok as (q & -> & Hq). eexists. split; [reflexivity|].
    unfold Knapsack.set_capacity, Knapsack.capacity. rewrite Hg. simpl.
    by apply of_nat_floor_nat.
  - intros Hno. rewrite <- is_valid_nonneg_number in Hno.
    apply not_true_false in Hno. destruct s.
    unfold Knapsack.set_capacity, Knapsack.capacity. rewrite Hno. simpl.
    by rewrite floor_nat_of_nat.
Qed.

(** C7, as the code has it.  Every mutator of an item and of an allocator
    stores an input that is a finite number, not negative where the
    attribute must not be (capacity, payoff, solution value, allocator
    capacity), and is a no-op that keeps the object as it was on every
    other input: [NaN], an infinity, a negative number where disallowed,
    [null], [undefined], or a value that is not a number.  The binary
    allocator stores the floor of the accepted capacity; all the others
    store the input itself.  The mutators are total: none raises. *)
Theorem mutators_store_valid_and_ignore_invalid :
  mutator nonneg_value id Item.set_capacity Item.capacity /\
  mutator nonneg_value id Item.set_payoff Item.payoff /\
  mutator nonneg_value id Item.set_solutionValue Item.solutionValue /\
  mutator finite_value id Item.set_capacityRisk Item.capacityRisk /\
  mutator finite_value id Item.set_payoffRisk Item.payoffRisk /\
  mutator finite_value id Item.set_solutionCapacity Item.solutionCapacity /\
  mutator nonneg_value id ItemAllocation.set_capacity ItemAllocation.capacity /\
  mutator nonneg_value num_floor Knapsack.set_capacity Knapsack.capacity.
Proof.
  repeat split;
    first [ apply set_capacity_mutator | apply set_payoff_mutator
          | apply set_solutionValue_mutator | apply set_capacityRisk_mutator
          | apply set_payoffRisk_mutator | apply set_solutionCapacity_mutator
          | apply continuous_set_capacity_mutator
          | apply binary_set_capacity_mutator ].
Qed.

Lemma nonneg_value_example : nonneg_value (VNum (Fin (5 # 2))).
Proof. exists (5 # 2)%Q. split; [reflexivity | discriminate]. Qed.

Lemma not_nonneg_value_example : ~ nonneg_value (VNum (Fin (-1))).
Proof. intros (q & [= <-] & Hq). by apply Hq. Qed.

(** The contract at work on the inputs of the test suite: 2.5 is stored by
    an item and floored by the binary allocator; -1, "abc" and [null] are
    ignored. *)
Lemma mutators_store_valid_and_ignore_invalid_witness :
  Item.capacity (Item.set_capacity Item.new (VNum (Fin (5 # 2)))) = Fin (5 # 2) /\
  Knapsack.capacity (Knapsack.set_capacity Knapsack.new (VNum (Fin (5 # 2))))
    = Fin 2 /\
  Item.set_payoff Item.new (VNum (Fin (-1))) = Item.new /\
  Item.set_payoff Item.new VOther = Item.new /\
  Item.set_payoff Item.new VNull = Item.new.
Proof.
  destruct mutators_store_valid_and_ignore_invalid
    as (Hc & Hp & _ & _ & _ & _ & _ & Hk).
  split; [|split; [|split; [|split]]].
  - destruct (Hc Item.new (VNum (Fin (5 # 2)))) as [H _].
    destruct (H nonneg_value_example) as (x & [= <-] & ->). reflexivity.
  - destruct (Hk Knapsack.new (VNum (Fin (5 # 2)))) as [H _].
    destruct (H nonneg_value_example) as (x & [= <-] & ->). reflexivity.
  - apply (Hp Item.new (VNum (Fin (-1)))), not_nonneg_value_example.
  - apply (Hp Item.new VOther). by intros (q & [=] & _).
  - apply (Hp Item.new VNull). by intros (q & [=] & _).
Defined.

(** The capacity mutator of the binary allocator does not store the valid
    input 2.5: it stores 2. *)
Lemma binary_set_capacity_not_stored :
  nonneg_value (VNum (Fin (5 # 2))) /\
  Knapsack.capacity (Knapsack.set_capacity Knapsack.new (VNum (Fin (5 # 2))))
    <> Fin (5 # 2).
Proof. split; [apply nonneg_value_example | discriminate]. Qed.

(** The invariant behind the contract: a new item is well formed and the
    mutators keep it so, whatever they are given. *)
Lemma wf_new : Item.wf Item.new.
Proof. by repeat split. Qed.

Lemma guarded_finite_nonneg (v : jsval) (old : number) :
  Item.finite_nonneg old ->
  Item.finite_nonneg (if is_valid_nonneg v then ToNumber v else old).
Proof.
  intros H. destruct (is_valid_nonneg v) eqn:E; [|done].
  apply is_valid_nonneg_number in E as (q & -> & Hq).
  apply finite_nonneg_Fin. eauto.
Qed.

Lemma guarded_finite (v : jsval) (old : number) :
  is_finite old = true ->
  is_finite (if is_valid v then ToNumber v else old) = true.
Proof.
  intros H. destruct (is_valid v) eqn:E; [|done].
  by apply is_valid_number in E as (q & ->).
Qed.

Lemma wf_mutators (it : Item.t) (v : jsval) :
  Item.wf it ->
  Item.wf (Item.set_capacity it v) /\ Item.wf (Item.set_payoff it v) /\
  Item.wf (Item.set_solutionValue it v) /\
  Item.wf (Item.set_solutionCapacity it v) /\
  Item.wf (Item.set_capacityRisk it v) /\ Item.wf (Item.set_payoffRisk it v).
Proof.
  intros [H1 H2 H3 H4 H5 H6].
  repeat split; simpl;
    first [ by apply guarded_finite_nonneg | by apply guarded_finite
          | apply H1 | apply H2 | apply H3 | done ].
Qed.

(** ** The default strategy *)

(** C10.  The default transform returns a record exactly when its argument
    is an item instance (which is never [null]); the record holds the
    item's capacity and payoff, their ratio as rate, and the value of the
    consumed part.  On any other argument it returns nothing.  In either
    case the store of items is left as it was. *)
Theorem default_transform_record_iff_item
    (h : store) (item : jsval) (data : option property_bag) :
  (is_Some (fst (DefaultItemStrategy.transform h item data)) <->
   exists r, item = VItem r) /\
  (forall r, item = VItem r ->
     fst (DefaultItemStrategy.transform h item data) =
       Some (Props.mk
               (Item.capacity (h r)) (Item.payoff (h r))
               (num_div (Item.payoff (h r)) (Item.capacity (h r)))
               (num_mul
                  (num_div (Item.solutionCapacity (h r)) (Item.capacity (h r)))
                  (Item.payoff (h r))))) /\
  ((~ exists r, item = VItem r) ->
     fst (DefaultItemStrategy.transform h item data) = None) /\
  snd (DefaultItemStrategy.transform h item data) = h.
Proof.
  destruct item as [| |x|r|]; simpl;
    (split; [split; [intros [p Hp]; try discriminate; eauto
                    | intros [r' Hr]; try discriminate; eauto] |]);
    (split; [intros r' [= <-] || (intros r' Hr; discriminate); reflexivity |]);
    (split; [|reflexivity]); intros Hn; try reflexivity.
  exfalso. apply Hn. eauto.
Qed.

Lemma default_transform_record_iff_item_witness :
  fst (DefaultItemStrategy.transform (fun _ => Item.new) (VItem 0) None) =
    Some (Props.mk zero zero NaN NaN) /\
  fst (DefaultItemStrategy.transform (fun _ => Item.new) VNull None) = None.
Proof.
  destruct (default_transform_record_iff_item (fun _ => Item.new) (VItem 0) None)
    as (_ & Hrec & _).
  destruct (default_transform_record_iff_item (fun _ => Item.new) VNull None)
    as (_ & _ & Hnone & _).
  split.
  - rewrite (Hrec 0 eq_refl). reflexivity.
  - apply Hnone. by intros [r [=]].
Defined.

(** ** Strategies *)

(** The default strategy object answers [transform] through its prototype. *)
Lemma default_strategy_exposes_transform :
  exposes_transform new_DefaultItemStrategy.
Proof. unfold exposes_transform. simpl. eauto. Qed.

(** An object is accepted exactly when [transform] is a property of its
    own, and then it replaces the strategy in place. *)
Lemma addStrategy_own (this : ItemAllocation.t) (o : object) :
  hasOwnProperty o "transform" = true ->
  exists this', ItemAllocation.addStrategy this (SObject o) = Ok this' /\
    ItemAllocation._strategy this' = Some o.
Proof.
  intros H. unfold ItemAllocation.addStrategy. simpl. rewrite H.
  eexists. split; reflexivity.
Qed.

Lemma addStrategy_inherited (this : ItemAllocation.t) (o : object) :
  hasOwnProperty o "transform" = false ->
  ItemAllocation.addStrategy this (SObject o) = Ok this.
Proof.
  intros H. unfold ItemAllocation.addStrategy. simpl. by rewrite H.
Qed.

(** C4, where the code departs from it.  An instance of the default
    strategy class exposes [transform], yet [addStrategy] does not accept
    it: an allocator without a strategy stays without one, and a strategy
    set before (here an object literal, which is accepted) stays in
    place. *)
Theorem addStrategy_ignores_class_instance (f : transform_fn) :
  let literal :=
    ItemAllocation.mk (Some (literal_strategy f)) [] zero None zero zero in
  exposes_transform new_DefaultItemStrategy /\
  ItemAllocation.addStrategy ItemAllocation.new (SObject new_DefaultItemStrategy)
    = Ok ItemAllocation.new /\
  ItemAllocation.addStrategy ItemAllocation.new (SObject (literal_strategy f))
    = Ok literal /\
  ItemAllocation.addStrategy literal (SObject new_DefaultItemStrategy)
    = Ok literal.
Proof.
  split; [apply default_strategy_exposes_transform|].
  repeat split.
Qed.

(** ** The continuous allocator with one item *)

Lemma update_eq (h : store) (r : ref) (it : Item.t) : update h r it r = it.
Proof. unfold update. by rewrite Nat.eqb_refl. Qed.

Lemma update_ne (h : store) (r r' : ref) (it : Item.t) :
  r' <> r -> update h r it r' = h r'.
Proof. intros H. unfold update. by apply Nat.eqb_neq in H as ->. Qed.

Lemma transformed_default (h : store) (item : ref) (data : option property_bag) :
  ItemAllocation.transformed new_DefaultItemStrategy h item data =
    Ok (Props.mk (Item.capacity (h item)) (Item.payoff (h item))
          (num_div (Item.payoff (h item)) (Item.capacity (h item)))
          (num_mul
             (num_div (Item.solutionCapacity (h item)) (Item.capacity (h item)))
             (Item.payoff (h item)))).
Proof. reflexivity. Qed.

Lemma fraction_nonneg (c qw : Q) :
  (0 < c)%Q -> (0 <= qw)%Q ->
  exists qf, fraction (Fin c) (Fin qw) = Fin qf /\ (0 <= qf)%Q.
Proof.
  intros Hc Hw. unfold fraction.
  destruct (num_le (Fin qw) (Fin c)) eqn:E.
  - exists 1%Q. split; [reflexivity | lra].
  - apply num_le_Fin_false in E. simpl.
    destruct (Qeq_bool qw 0) eqn:E0.
    + apply Qeq_bool_iff in E0. lra.
    + eexists. split; [reflexivity|]. rewrite Qred_correct.
      apply Qle_shift_div_l; lra.
Qed.

Lemma num_mul_nonneg (x y : Q) :
  (0 <= x)%Q -> (0 <= y)%Q ->
  is_valid_nonneg (VNum (num_mul (Fin x) (Fin y))) = true.
Proof.
  intros Hx Hy. apply is_valid_nonneg_number. eexists. split; [reflexivity|].
  rewrite Qred_correct. by apply Qmult_le_0_compat.
Qed.

(** C5.  With one item, a positive capacity and the default strategy,
    [allocate] takes the fraction [f] of the item: 1 when the item's
    capacity is at most the capacity of the environment, and their
    quotient otherwise.  The item's solution capacity and solution value
    become [f] times its capacity and payoff, the allocator's aggregates
    are the same two numbers, and the item is the one element
    returned.  No other item is written. *)
Theorem allocate_single_item
    (this : ItemAllocation.t) (h : store) (item : ref) (c : Q) :
  ItemAllocation._items this = [item] ->
  ItemAllocation._capacity this = Fin c -> (0 < c)%Q ->
  ItemAllocation._strategy this = None \/
    ItemAllocation._strategy this = Some new_DefaultItemStrategy ->
  Item.wf (h item) ->
  let w := Item.capacity (h item) in
  let p := Item.payoff (h item) in
  let f := if num_le w (Fin c) then one else num_div (Fin c) w in
  exists this' h',
    ItemAllocation.allocate this h = Ok ([item], this', h') /\
    ItemAllocation.solutionCapacity this' = num_mul f w /\
    ItemAllocation.payoff this' = num_mul f p /\
    Item.solutionCapacity (h' item) = num_mul f w /\
    Item.solutionValue (h' item) = num_mul f p /\
    (forall r, r <> item -> h' r = h r).
Proof.
  intros Hitems Hcap Hc Hstrategy Hwf w p f.
  destruct Hwf as [Hw Hp _ _ _ _].
  apply finite_nonneg_Fin in Hw as (qw & Hw & Hqw).
  apply finite_nonneg_Fin in Hp as (qp & Hp & Hqp).
  destruct (fraction_nonneg c qw Hc Hqw) as (qf & Hf & Hqf).
  assert (Hfw : f = Fin qf).
  { subst f w. unfold Item.capacity. rewrite Hw. exact Hf. }
  assert (Hwq : w = Fin qw) by exact Hw.
  assert (Hpq : p = Fin qp) by exact Hp.
  assert (Hstr : match ItemAllocation._strategy this with
                 | Some s => s | None => new_DefaultItemStrategy end
                 = new_DefaultItemStrategy).
  { by destruct Hstrategy as [-> | ->]. }
  unfold ItemAllocation.allocate. rewrite Hitems, Hcap, Hstr.
  cbn [length Nat.eqb].
  assert (Hz : num_eqb (Fin c) zero = false).
  { apply not_true_false. intros E. apply num_eqb_Fin in E. lra. }
  rewrite Hz. cbn [ItemAllocation._items ItemAllocation._data
                   ItemAllocation._capacity].
  rewrite transformed_default. cbn [mbind result_bind Props.capacity Props.payoff].
  fold w p f.
  eexists _, _. split; [reflexivity|].
  cbn [ItemAllocation.solutionCapacity ItemAllocation.payoff
       ItemAllocation.with_solution ItemAllocation._solutionCapacity
       ItemAllocation._solutionPayoff].
  split; [reflexivity|]. split; [reflexivity|].
  unfold assign_solutionCapacity, assign_solutionValue.
  rewrite !update_eq.
  assert (Hv1 : is_valid_nonneg (VNum (num_mul f p)) = true).
  { rewrite Hfw, Hpq. by apply num_mul_nonneg. }
  assert (Hv2 : is_valid (VNum (num_mul f w)) = true).
  { rewrite Hfw, Hwq. reflexivity. }
  split; [|split].
  - unfold Item.solutionCapacity, Item.set_solutionCapacity. simpl.
    by rewrite Hv2.
  - unfold Item.solutionValue, Item.set_solutionCapacity, Item.set_solutionValue.
    simpl. by rewrite Hv1.
  - intros r Hr. by rewrite !update_ne.
Qed.

(** Evaluate the closed call on the left of the first equation of the goal
    and use its value for the unknowns on the right. *)
Ltac run_call :=
  lazymatch goal with
  | |- ?call = _ /\ _ =>
      let v := eval vm_compute in call in
      split; [transitivity v; [vm_compute; reflexivity | reflexivity] |]
  end.

Ltac by_evaluation := vm_compute; repeat split.

(** The single item of the test suite: capacity 5 and payoff 100 in an
    environment of capacity 2.5 give solution capacity 2.5 and payoff 50. *)
Lemma allocate_single_item_witness :
  exists this' h',
    ItemAllocation.allocate (continuous_of (5 # 2) 1) (store_of [item_with 5 100])
      = Ok ([0], this', h') /\
    ItemAllocation.solutionCapacity this' = Fin (5 # 2) /\
    ItemAllocation.payoff this' = Fin 50 /\
    Item.solutionCapacity (h' 0) = Fin (5 # 2) /\
    Item.solutionValue (h' 0) = Fin 50.
Proof.
  assert (Hwf : Item.wf (store_of [item_with 5 100] 0)) by (by repeat split).
  destruct (allocate_single_item (continuous_of (5 # 2) 1)
              (store_of [item_with 5 100]) 0 (5 # 2)
              eq_refl eq_refl eq_refl (or_introl eq_refl) Hwf)
    as (this' & h' & Hrun & Hsc & Hsp & Hic & Hiv & _).
  exists this', h'.
  split; [exact Hrun|]. split; [exact Hsc|]. split; [exact Hsp|].
  split; [exact Hic | exact Hiv].
Defined.

(** ** The continuous allocator called twice *)

(** C2, where the code departs from it.  Two items of capacity 5 and 8 and
    payoff 100 and 150 in an environment of capacity 8: the first call of
    [allocate] leaves the payoff 156.25; a second call, with nothing
    changed in between, returns the same items with the same solution
    fields and the same solution capacity, and leaves the payoff 312.5.
    The general path resets the solution capacity and not the payoff. *)
Theorem allocate_twice_payoff_differs :
  exists l1 a1 h1 l2 a2 h2,
    ItemAllocation.allocate (continuous_of 8 2)
      (store_of [item_with 5 100; item_with 8 150]) = Ok (l1, a1, h1) /\
    ItemAllocation.allocate a1 h1 = Ok (l2, a2, h2) /\
    l1 = [0; 1] /\ l2 = [0; 1] /\
    (Item.solutionCapacity <$> (h1 <$> l1)) = [Fin 5; Fin 3] /\
    (Item.solutionCapacity <$> (h2 <$> l2)) = [Fin 5; Fin 3] /\
    (Item.solutionValue <$> (h1 <$> l1)) = [Fin 100; Fin (225 # 4)] /\
    (Item.solutionValue <$> (h2 <$> l2)) = [Fin 100; Fin (225 # 4)] /\
    ItemAllocation.solutionCapacity a1 = Fin 8 /\
    ItemAllocation.solutionCapacity a2 = Fin 8 /\
    ItemAllocation.payoff a1 = Fin (625 # 4) /\
    ItemAllocation.payoff a2 = Fin (625 # 2).
Proof.
  eexists _, _, _, _, _, _.
  run_call. run_call. by_evaluation.
Qed.

(** ** The binary allocator on examples *)

(** The first problem of the test suite: items of capacity and payoff
    (5,10), (4,40), (6,30), (3,50) and capacity 10.  The payoff is 90 and
    the items returned are the fourth and the second, in this order. *)
Lemma binary_example :
  exists k' h',
    Knapsack.allocate 4 (binary_of 10 4)
      (store_of [item_with 5 10; item_with 4 40; item_with 6 30; item_with 3 50])
      = Ok ([3; 1], k', h') /\
    Knapsack.payoff k' = Fin 90 /\
    total Item.capacity h' [3; 1] = Fin 7 /\
    total Item.payoff h' [3; 1] = Fin 90.
Proof. eexists _, _. run_call. by_evaluation. Qed.

(** C3, where the code departs from it.  On the same problem [allocate]
    returns two items that consume 7 units of capacity together, and the
    allocator's solution capacity is still 0: [allocate] never assigns
    it. *)
Theorem binary_solutionCapacity_not_assigned :
  exists l k' h',
    Knapsack.allocate 4 (binary_of 10 4)
      (store_of [item_with 5 10; item_with 4 40; item_with 6 30; item_with 3 50])
      = Ok (l, k', h') /\
    l = [3; 1] /\
    total Item.capacity h' l = Fin 7 /\
    Knapsack.solutionCapacity k' = Fin 0.
Proof. eexists _, _, _. run_call. by_evaluation. Qed.

(** C1, where the code departs from it.  Two items, the first of capacity
    0 and payoff 5, the second of capacity 1 and payoff 1, and capacity 1.
    Both items fit together, for a payoff of 6; [allocate] computes the
    payoff 5 and returns the first item alone.  Column 0 of the value
    table is never filled, so an item of capacity 0 is lost whenever the
    capacity left is 0. *)
Theorem binary_zero_capacity_item_not_optimal :
  exists l k' h',
    Knapsack.allocate 2 (binary_of 1 2)
      (store_of [item_with 0 5; item_with 1 1]) = Ok (l, k', h') /\
    l = [0] /\
    Knapsack.payoff k' = Fin 5 /\
    num_le (total Item.capacity h' [0; 1]) (Knapsack.capacity k') = true /\
    total Item.payoff h' [0; 1] = Fin 6.
Proof. eexists _, _, _. run_call. by_evaluation. Qed.

(** ** The order on numbers *)

Lemma num_lt_asym (a b : number) : num_lt a b = true -> num_lt b a = false.
Proof.
  destruct a as [| | |x], b as [| | |y]; try done.
  rewrite num_lt_Fin, num_lt_Fin_false. lra.
Qed.

Lemma num_le_trans (a b c : number) :
  num_le a b = true -> num_le b c = true -> num_le a c = true.
Proof.
  destruct a as [| | |x], b as [| | |y], c as [| | |z]; try done.
  rewrite !num_le_Fin. lra.
Qed.

Lemma num_lt_false_le (a b : number) :
  is_nan a = false -> is_nan b = false ->
  num_lt a b = false -> num_le b a = true.
Proof.
  destruct a as [| | |x], b as [| | |y]; try done.
  rewrite num_lt_Fin_false, num_le_Fin. lra.
Qed.

Lemma num_lt_le (a b : number) : num_lt a b = true -> num_le a b = true.
Proof. unfold num_le. by intros ->. Qed.

(** ** The initial sort *)

Section SortByRate.
Context (strategy : object) (h : store) (data : option property_bag).
Let rate := rate_at strategy h data.

Lemma by_rate_order (tmp element : ref) :
  (exists p, ItemAllocation.transformed strategy h tmp data = Ok p) ->
  (exists p, ItemAllocation.transformed strategy h element data = Ok p) ->
  exists order,
    ItemAllocation.by_rate strategy h data tmp element = Ok order /\
    (0 <? order)%Z = num_lt (rate tmp) (rate element).
Proof.
  intros [p1 H1] [p2 H2]. unfold ItemAllocation.by_rate, rate, rate_at.
  rewrite H1, H2. cbn [mbind result_bind]. eexists. split; [reflexivity|].
  unfold num_gt.
  destruct (num_lt (Props.rate p2) (Props.rate p1)) eqn:E.
  - by rewrite (num_lt_asym _ _ E).
  - by destruct (num_lt (Props.rate p1) (Props.rate p2)).
Qed.

Lemma sort_insert_by_rate (element : ref) (sorted : list ref) :
  Forall (fun r => exists p,
            ItemAllocation.transformed strategy h r data = Ok p)
         (element :: sorted) ->
  sort_insert (ItemAllocation.by_rate strategy h data) element sorted =
    Ok (insert_by rate element sorted).
Proof.
  intros H. apply Forall_cons in H as [He Hs].
  induction Hs as [|tmp rest Ht Hrest IH]; [reflexivity|].
  cbn [sort_insert insert_by].
  destruct (by_rate_order tmp element Ht He) as (order & Hrun & Horder).
  rewrite Hrun. cbn [mbind result_bind]. rewrite Horder.
  destruct (num_lt (rate tmp) (rate element)); [|reflexivity].
  by rewrite IH.
Qed.

Lemma insert_by_Permutation (element : ref) (sorted : list ref) :
  insert_by rate element sorted ≡ₚ element :: sorted.
Proof.
  induction sorted as [|tmp rest IH]; [reflexivity|]. simpl.
  destruct (num_lt (rate tmp) (rate element)); [|reflexivity].
  rewrite IH. apply Permutation_swap.
Qed.

Lemma insert_by_ascending (element : ref) (sorted : list ref) :
  Forall (fun r => is_nan (rate r) = false) (element :: sorted) ->
  ascending rate sorted -> ascending rate (insert_by rate element sorted).
Proof.
  intros H Hasc. apply Forall_cons in H as [He Hs].
  induction Hasc as [|tmp rest Hrest IH Htmp]; simpl.
  { repeat constructor. }
  apply Forall_cons in Hs as [Ht Hs].
  destruct (num_lt (rate tmp) (rate element)) eqn:E.
  - constructor; [by apply IH|].
    rewrite insert_by_Permutation. constructor; [by apply num_lt_le | done].
  - assert (Hle : num_le (rate element) (rate tmp) = true)
      by (by apply num_lt_false_le).
    constructor; [by constructor|].
    constructor; [done|].
    eapply Forall_impl; [exact Htmp|]. intros r Hr. simpl in Hr.
    by eapply num_le_trans.
Qed.

(** The invariant of the sort: the part in order is a permutation of the
    elements taken so far, and ascending when read last element first. *)
Lemma sort_from_spec (a sorted : list ref) :
  Forall (fun r => exists p,
            ItemAllocation.transformed strategy h r data = Ok p)
         (sorted ++ a) ->
  exists items,
    sort_from (ItemAllocation.by_rate strategy h data) sorted a = Ok items /\
    items ≡ₚ sorted ++ a /\
    (Forall (fun r => is_nan (rate r) = false) (sorted ++ a) ->
     ascending rate sorted -> ascending rate (reverse items)).
Proof.
  revert sorted. induction a as [|element a IH]; intros sorted Hok.
  - exists (reverse sorted). split; [reflexivity|].
    rewrite app_nil_r. split; [apply reverse_Permutation|].
    intros _ Hs. by rewrite reverse_involutive.
  - cbn [sort_from]. rewrite sort_insert_by_rate.
    2:{ apply Forall_app in Hok as [Hs Ha].
        apply Forall_cons in Ha as [He Ha]. by constructor. }
    cbn [mbind result_bind].
    assert (Hperm : insert_by rate element sorted ++ a ≡ₚ sorted ++ element :: a).
    { rewrite insert_by_Permutation. simpl. apply Permutation_middle. }
    destruct (IH (insert_by rate element sorted)) as (items & Hrun & Hp & Hsorted).
    { by rewrite Hperm. }
    exists items. split; [exact Hrun|]. split; [by rewrite Hp|].
    intros Hnan Hasc. apply Hsorted; [by rewrite Hperm|].
    apply insert_by_ascending; [|done].
    apply Forall_app in Hnan as [Hs Ha].
    apply Forall_cons in Ha as [He Ha]. by constructor.
Qed.

End SortByRate.

Lemma StronglySorted_reverse {A : Type} (R : relation A) (l : list A) :
  StronglySorted R l -> StronglySorted (flip R) (reverse l).
Proof.
  induction 1 as [|x l Hl IH Hx]; [constructor|].
  rewrite reverse_cons. apply StronglySorted_app_2; [|done|repeat constructor].
  intros x1 x2 H1 ->%list_elem_of_singleton. rewrite elem_of_reverse in H1.
  unfold flip. rewrite Forall_forall in Hx. by apply Hx.
Qed.

Lemma ascending_reverse (rate : ref -> number) (items : list ref) :
  ascending rate (reverse items) -> descending rate items.
Proof.
  intros H. apply StronglySorted_reverse in H.
  by rewrite reverse_involutive in H.
Qed.

(** ** The greedy loop *)

(** With a strategy that answers for every item the loop runs to its end,
    and it leaves the collection, the capacity, the strategy and its data
    as they were. *)
Lemma greedy_total (strategy : object) (items : list ref) :
  total_strategy strategy ->
  forall this h allocation,
  exists allocation' this' h',
    ItemAllocation.greedy strategy items this h allocation
      = Ok (allocation', this', h') /\
    ItemAllocation._items this' = ItemAllocation._items this /\
    ItemAllocation._capacity this' = ItemAllocation._capacity this /\
    ItemAllocation._strategy this' = ItemAllocation._strategy this /\
    ItemAllocation._data this' = ItemAllocation._data this.
Proof.
  intros Htotal. induction items as [|item rest IH]; intros this h allocation.
  { eexists _, _, _. by split. }
  cbn [ItemAllocation.greedy].
  destruct (num_le _ zero); [eexists _, _, _; by split|].
  destruct (Htotal h item (ItemAllocation._data this)) as [p ->].
  cbn [mbind result_bind].
  destruct (num_ge _ _); [eexists _, _, _; by split|].
  match goal with
  | |- context [ItemAllocation.greedy strategy rest ?t ?s ?a] =>
      destruct (IH t s a) as (a' & t' & s' & Hrun & Hi & Hc & Hs & Hd)
  end.
  eexists _, _, _. split; [exact Hrun|]. by rewrite Hi, Hc, Hs, Hd.
Qed.

Lemma default_strategy_total : total_strategy new_DefaultItemStrategy.
Proof. intros h item data. eexists. apply transformed_default. Qed.

(** ** The collection after [allocate] *)

(** C9, as the code has it.  With two items or more, a positive capacity
    and a strategy that answers for every item, [allocate] replaces the
    collection of the allocator by its sorted copy: the same items, as
    many of them, and the order is the one every later operation reads,
    the scan of [removeItem] among them.  When no rate is [NaN] the new
    order is by descending rate. *)
Theorem allocate_sorts_collection
    (this : ItemAllocation.t) (h : store) (c : Q) :
  let strategy := strategy_in_effect this in
  let rate := rate_at strategy h (ItemAllocation._data this) in
  2 <= ItemAllocation.itemCount this ->
  ItemAllocation._capacity this = Fin c -> (0 < c)%Q ->
  total_strategy strategy ->
  exists allocation this' h',
    ItemAllocation.allocate this h = Ok (allocation, this', h') /\
    sort (ItemAllocation.by_rate strategy h (ItemAllocation._data this))
      (ItemAllocation._items this) = Ok (ItemAllocation._items this') /\
    ItemAllocation._items this' ≡ₚ ItemAllocation._items this /\
    ItemAllocation.itemCount this' = ItemAllocation.itemCount this /\
    (Forall (fun r => is_nan (rate r) = false) (ItemAllocation._items this) ->
     descending rate (ItemAllocation._items this')) /\
    (forall item,
       ItemAllocation._items (ItemAllocation.removeItem this' (VItem item)) =
         ItemAllocation.remove_first item (ItemAllocation._items this')).
Proof.
  intros strategy rate Hcount Hcap Hc Htotal.
  unfold ItemAllocation.itemCount in *.
  destruct (sort_from_spec strategy h (ItemAllocation._data this)
              (ItemAllocation._items this) [])
    as (items & Hsort & Hperm & Hsorted).
  { apply Forall_forall. intros r _. apply Htotal. }
  simpl in Hperm.
  unfold ItemAllocation.allocate. fold (strategy_in_effect this). fold strategy.
  destruct (Nat.eqb_neq (length (ItemAllocation._items this)) 0) as [_ ->]; [|lia].
  destruct (Nat.eqb_neq (length (ItemAllocation._items this)) 1) as [_ ->]; [|lia].
  rewrite Hcap.
  assert (Hz : num_eqb (Fin c) zero = false).
  { apply not_true_false. intros E. apply num_eqb_Fin in E. lra. }
  rewrite Hz.
  cbn [ItemAllocation._items ItemAllocation._data ItemAllocation._capacity
       ItemAllocation._strategy ItemAllocation._solutionPayoff].
  unfold sort in *. rewrite Hsort. cbn [mbind result_bind].
  match goal with
  | |- context [ItemAllocation.greedy strategy items ?t ?s ?a] =>
      destruct (greedy_total strategy items Htotal t s a)
        as (a' & t' & s' & Hrun & Hi & _)
  end.
  exists a', t', s'. split; [exact Hrun|].
  rewrite Hi. cbn [ItemAllocation._items].
  split; [reflexivity|]. split; [exact Hperm|].
  split; [by rewrite Hperm|].
  split; [|intros item; cbn [ItemAllocation.removeItem ItemAllocation._items];
            by rewrite Hi].
  intros Hnan. apply ascending_reverse, Hsorted; [|constructor].
  exact Hnan.
Qed.

(** Two items entered in ascending order of rate (18.75, then 20) are
    kept in descending order after [allocate], and [removeItem] scans
    that order. *)
Lemma allocate_sorts_collection_witness :
  exists allocation this' h',
    ItemAllocation.allocate (continuous_of 8 2)
      (store_of [item_with 8 150; item_with 5 100])
      = Ok (allocation, this', h') /\
    ItemAllocation._items this' = [1; 0] /\
    ItemAllocation.itemCount this' = 2 /\
    ItemAllocation._items (ItemAllocation.removeItem this' (VItem 0)) = [1].
Proof.
  destruct (allocate_sorts_collection (continuous_of 8 2)
              (store_of [item_with 8 150; item_with 5 100]) 8
              (le_n 2) eq_refl eq_refl default_strategy_total)
    as (allocation & this' & h' & Hrun & Hsort & _ & Hcount & _ & Hremove).
  assert (Hitems : ItemAllocation._items this' = [1; 0]).
  { vm_compute in Hsort. injection Hsort as Hs. symmetry. exact Hs. }
  exists allocation, this', h'. split; [exact Hrun|].
  split; [exact Hitems|]. split; [exact Hcount|].
  rewrite Hremove, Hitems. reflexivity.
Defined.

(** Three items of rate 1, [NaN] (capacity 0 and payoff 0, as a new item
    has them) and 2, and capacity 5: after [allocate] the collection is in
    the order it was, which is not by descending rate. *)
Lemma allocate_nan_rate_not_descending :
  exists allocation this' h',
    ItemAllocation.allocate (continuous_of 5 3)
      (store_of [item_with 1 1; item_with 0 0; item_with 1 2])
      = Ok (allocation, this', h') /\
    ItemAllocation._items this' = [0; 1; 2] /\
    ~ descending
        (rate_at new_DefaultItemStrategy
           (store_of [item_with 1 1; item_with 0 0; item_with 1 2]) None)
        (ItemAllocation._items this').
Proof.
  eexists _, _, _. run_call.
  split; [reflexivity|].
  cbn [ItemAllocation._items]. intros H.
  apply StronglySorted_cons in H as [H _].
  apply Forall_cons in H as [_ H]. apply Forall_cons in H as [H _].
  vm_compute in H. discriminate.
Qed.

(** ** Natural numbers as numbers *)

Lemma Qred_inject_Z (z : Z) : Qred (inject_Z z) = inject_Z z.
Proof. apply Qred_identity. simpl. apply Z.gcd_1_r. Qed.

Lemma index_of_of_nat (c : nat) : index_of (of_nat c) = Some c.
Proof.
  unfold index_of, of_nat. rewrite Qfloor_Z, Nat2Z.id.
  assert (Qeq_bool (inject_Z (Z.of_nat c)) (inject_Z (Z.of_nat c)) = true) as ->
    by (by apply Qeq_bool_iff).
  by destruct (Z.leb_le 0 (Z.of_nat c)) as [_ ->]; [|lia].
Qed.

Lemma num_le_of_nat (w c : nat) : num_le (of_nat w) (of_nat c) = bool_decide (w <= c).
Proof.
  unfold of_nat. case_bool_decide as H.
  - apply num_le_Fin. rewrite <- Zle_Qle. lia.
  - apply num_le_Fin_false. rewrite <- Zlt_Qlt. lia.
Qed.

Lemma num_sub_of_nat (c w : nat) :
  w <= c -> num_sub (of_nat c) (of_nat w) = of_nat (c - w).
Proof.
  intros H. unfold of_nat, num_sub. f_equal.
  rewrite <- (Qred_inject_Z (Z.of_nat (c - w))). apply Qred_complete.
  rewrite Nat2Z.inj_sub by done. unfold Z.sub.
  rewrite inject_Z_plus, inject_Z_opp. reflexivity.
Qed.

Lemma num_eqb_refl_finite (a : number) : is_finite a = true -> num_eqb a a = true.
Proof. destruct a; try done. intros _. by apply num_eqb_Fin. Qed.

Lemma num_gt_zero (a : number) : num_gt zero zero = false.
Proof. reflexivity. Qed.

(** ** The value table *)

Lemma fold_insert_lookup (f : nat -> number) (k j x : nat) (cur : list number) :
  fold_left (fun row c => <[c := f c]> row) (seq j k) cur !! x =
    if bool_decide (j <= x < j + k /\ x < length cur) then Some (f x)
    else cur !! x.
Proof.
  revert j cur. induction k as [|k IH]; intros j cur; simpl.
  { case_bool_decide; [lia|done]. }
  rewrite IH, length_insert, list_lookup_insert.
  repeat (case_bool_decide || case_decide); try done; try lia.
  destruct_and!. by subst.
Qed.

Lemma fold_insert_length (f : nat -> number) (l : list nat) (cur : list number) :
  length (fold_left (fun row c => <[c := f c]> row) l cur) = length cur.
Proof.
  revert cur. induction l as [|c l IH]; intros cur; simpl; [done|].
  by rewrite IH, length_insert.
Qed.

Lemma next_row_length (cols : nat) (item : Item.t) (prev : list number) :
  length (next_row cols item prev) = cols.
Proof. unfold next_row. by rewrite fold_insert_length, length_replicate. Qed.

Lemma next_row_lookup (cols : nat) (item : Item.t) (prev : list number) (c : nat) :
  c < cols ->
  next_row cols item prev !! c =
    Some (if bool_decide (1 <= c) then cell_value item prev c else zero).
Proof.
  intros H. unfold next_row. rewrite fold_insert_lookup, length_replicate.
  rewrite lookup_replicate_2 by done.
  repeat case_bool_decide; try done; lia.
Qed.

Lemma row_at_length (cols : nat) (items : list Item.t) (i : nat) :
  length (row_at cols items i) = cols.
Proof.
  destruct i as [|i]; simpl; [by rewrite length_replicate|].
  destruct (items !! i); [apply next_row_length | by rewrite length_replicate].
Qed.

(** The inner loop on row [i] amounts to replacing the row by the next row
    of the row before. *)
Lemma fold_fill_cell (item : Item.t) (i : nat) (prev : list number)
    (l : list nat) (value : table) (cur : list number) :
  value !! i = Some prev -> value !! S i = Some cur ->
  fold_left (Knapsack.fill_cell item (S i)) l value =
    <[S i := fold_left (fun row c => <[c := cell_value item prev c]> row) l cur]>
      value.
Proof.
  revert value cur. induction l as [|c l IH]; intros value cur Hprev Hcur; simpl.
  { symmetry. by apply list_insert_id. }
  assert (Hcell : Knapsack.fill_cell item (S i) value c =
                  <[S i := <[c := cell_value item prev c]> cur]> value).
  { unfold Knapsack.fill_cell, cell_value, write, read.
    replace (S i - 1) with i by lia. rewrite Hprev, Hcur.
    by destruct (num_le _ _). }
  rewrite Hcell.
  assert (Hlt : S i < length value) by (by eapply lookup_lt_Some).
  rewrite (IH _ (<[c := cell_value item prev c]> cur)).
  - by rewrite list_insert_insert_eq.
  - rewrite list_lookup_insert_ne by lia. done.
  - by rewrite list_lookup_insert_eq.
Qed.

Section Table.
Context (items : list ref) (h : store) (cols : nat).
Let n := length items.
Let zeros := replicate cols zero.
Let row := row_at cols (h <$> items).

Let filled_upto := filled_upto items h cols.

Lemma create_filled : filled_upto 0 (create (S n) cols zero).
Proof.
  split; [apply length_replicate|]. intros i Hi. unfold create.
  rewrite lookup_replicate_2 by lia. case_bool_decide as H; [|done].
  by replace i with 0 by lia.
Qed.

Lemma fill_row_filled (k : nat) (value : table) :
  k < n -> filled_upto k value ->
  exists value',
    Knapsack.fill_row items h cols value (S k) = Ok value' /\
    filled_upto (S k) value'.
Proof.
  intros Hk [Hlen Hrows]. unfold Knapsack.fill_row.
  replace (S k - 1) with k by lia.
  destruct (lookup_lt_is_Some_2 items k Hk) as [r Hr]. rewrite Hr.
  eexists. split; [reflexivity|].
  pose proof (Hrows k ltac:(lia)) as Hprev.
  pose proof (Hrows (S k) ltac:(lia)) as Hcur.
  rewrite bool_decide_true in Hprev by lia.
  rewrite bool_decide_false in Hcur by lia.
  rewrite (fold_fill_cell _ _ _ _ _ _ Hprev Hcur).
  split; [by rewrite length_insert|]. intros i Hi.
  rewrite list_lookup_insert. case_decide as Hik.
  - destruct Hik as [<- _]. rewrite bool_decide_true by lia.
    cbn [row_at]. rewrite list_lookup_fmap, Hr. reflexivity.
  - rewrite Hrows by done.
    repeat case_bool_decide; try done; lia.
Qed.

Lemma fill_rows_filled (m k : nat) (value : table) :
  k + m <= n -> filled_upto k value ->
  exists value',
    Knapsack.fill_rows items h cols value (seq (S k) m) = Ok value' /\
    filled_upto (k + m) value'.
Proof.
  revert k value. induction m as [|m IH]; intros k value Hk Hfilled.
  { exists value. split; [reflexivity|]. by rewrite Nat.add_0_r. }
  cbn [seq Knapsack.fill_rows].
  destruct (fill_row_filled k value ltac:(lia) Hfilled) as (value' & -> & Hf).
  cbn [mbind result_bind].
  destruct (IH (S k) value' ltac:(lia) Hf) as (value'' & Hrun & Hf').
  exists value''. split; [exact Hrun|].
  by replace (k + S m) with (S k + m) by lia.
Qed.

(** The table that [allocate] builds: row [i] is [row_at] of [i]. *)
Lemma fill_rows_table :
  exists value,
    Knapsack.fill_rows items h cols (create (n + 1) cols zero) (seq 1 (n + 1 - 1))
      = Ok value /\
    length value = S n /\
    forall i, i <= n -> value !! i = Some (row i).
Proof.
  replace (n + 1 - 1) with n by lia. replace (n + 1) with (S n) by lia.
  destruct (fill_rows_filled n 0 _ ltac:(lia) create_filled)
    as (value & Hrun & Hlen & Hrows).
  exists value. split; [exact Hrun|]. split; [exact Hlen|].
  intros i Hi. rewrite Hrows by done. by rewrite bool_decide_true by lia.
Qed.

End Table.

(** ** The cells of the value table *)

Lemma canonical_nonneg_zero : canonical_nonneg zero.
Proof. exists 0%Q. split; [reflexivity | lra]. Qed.

Lemma canonical_nonneg_finite (a : number) :
  canonical_nonneg a -> is_finite a = true.
Proof. by intros (q & -> & _). Qed.

Lemma canonical_nonneg_max (a b : number) :
  canonical_nonneg a -> canonical_nonneg b -> canonical_nonneg (num_max a b).
Proof.
  intros (x & -> & Hx) (y & -> & Hy). unfold num_max.
  destruct (num_lt _ _); [by exists y | by exists x].
Qed.

Lemma canonical_nonneg_add (a b : number) :
  Item.finite_nonneg a -> canonical_nonneg b -> canonical_nonneg (num_add a b).
Proof.
  intros (x & -> & Hx)%finite_nonneg_Fin (y & -> & Hy). simpl.
  eexists. split; [reflexivity|]. rewrite Qred_correct. lra.
Qed.

(** A cell that is not positive is 0. *)
Lemma canonical_nonneg_not_gt (a : number) :
  canonical_nonneg a -> num_gt a zero = false -> a = zero.
Proof.
  intros (q & -> & Hq) H. unfold num_gt, zero in H.
  apply num_lt_Fin_false in H. rewrite Qred_correct in H.
  unfold zero. f_equal. change 0%Q with (Qred 0). apply Qred_complete. lra.
Qed.

Section Cells.
Context (cols : nat) (h : store) (items : list ref).
Context (Hitems : integral_items h items).
Let its := h <$> items.

Lemma entry_row_0 (c : nat) : c < cols -> entry cols its 0 c = zero.
Proof.
  intros H. unfold entry, read_row. rewrite index_of_of_nat. simpl.
  by rewrite lookup_replicate_2.
Qed.

Lemma entry_column_0 (i : nat) : 0 < cols -> entry cols its i 0 = zero.
Proof.
  intros H. unfold entry, read_row. rewrite index_of_of_nat.
  destruct i as [|i]; simpl.
  { by rewrite lookup_replicate_2. }
  destruct (its !! i).
  - by rewrite next_row_lookup.
  - by rewrite lookup_replicate_2.
Qed.

(** The recurrence, for an item of capacity [w]. *)
Lemma entry_row_S (i c w : nat) (r : ref) :
  items !! i = Some r -> Item.capacity (h r) = of_nat w -> 1 <= c < cols ->
  entry cols its (S i) c =
    if bool_decide (w <= c)
    then num_max (num_add (Item.payoff (h r)) (entry cols its i (c - w)))
           (entry cols its i c)
    else entry cols its i c.
Proof.
  intros Hr Hw Hc. unfold entry at 1, read_row. rewrite index_of_of_nat.
  cbn [row_at]. unfold its at 1. rewrite list_lookup_fmap, Hr. cbn [fmap option_fmap option_map].
  rewrite next_row_lookup by lia. rewrite bool_decide_true by lia.
  cbn [default]. unfold cell_value. rewrite Hw, num_le_of_nat.
  case_bool_decide; [|reflexivity].
  by rewrite num_sub_of_nat.
Qed.

Lemma entry_canonical (i c : nat) :
  i <= length items -> c < cols -> canonical_nonneg (entry cols its i c).
Proof.
  revert c. induction i as [|i IH]; intros c Hi Hc.
  { rewrite entry_row_0 by done. apply canonical_nonneg_zero. }
  destruct (decide (c = 0)) as [->|Hc0].
  { rewrite entry_column_0 by done. apply canonical_nonneg_zero. }
  destruct (lookup_lt_is_Some_2 items i ltac:(lia)) as [r Hr].
  pose proof Hitems as Hall. unfold integral_items in Hall.
  rewrite Forall_forall in Hall.
  destruct (Hall r) as [[w Hw] Hp]; [by eapply list_elem_of_lookup_2|].
  rewrite (entry_row_S i c w r) by (done || lia).
  case_bool_decide.
  - apply canonical_nonneg_max; [|apply IH; lia].
    apply canonical_nonneg_add; [done|]. apply IH; lia.
  - apply IH; lia.
Qed.

(** A cell that differs from the cell above it belongs to an item that
    fits in the column. *)
Lemma entry_differs_fits (i c w : nat) (r : ref) :
  items !! i = Some r -> Item.capacity (h r) = of_nat w -> c < cols ->
  num_neqb (entry cols its i c) (entry cols its (S i) c) = true ->
  w <= c.
Proof.
  intros Hr Hw Hc Hne. unfold num_neqb in Hne. apply negb_true_iff in Hne.
  assert (Hi : i < length items) by (by eapply lookup_lt_Some).
  destruct (decide (c = 0)) as [->|Hc0].
  { rewrite !entry_column_0 in Hne by lia. discriminate. }
  rewrite (entry_row_S i c w r) in Hne by (done || lia).
  case_bool_decide; [done|].
  rewrite num_eqb_refl_finite in Hne; [discriminate|].
  apply canonical_nonneg_finite, entry_canonical; lia.
Qed.

End Cells.

(** ** The backtracking loop *)

Lemma assign_solution_frame (h : store) (r : ref) (x : number) (r' : ref) :
  (Item.capacity (assign_solutionCapacity h r x r') = Item.capacity (h r') /\
   Item.payoff (assign_solutionCapacity h r x r') = Item.payoff (h r')) /\
  (Item.capacity (assign_solutionValue h r x r') = Item.capacity (h r') /\
   Item.payoff (assign_solutionValue h r x r') = Item.payoff (h r')).
Proof.
  unfold assign_solutionCapacity, assign_solutionValue, update.
  destruct (Nat.eqb_spec r' r) as [->|]; by repeat split.
Qed.

(** The row index goes down by exactly one in every turn of the loop. *)
Lemma step_row (value : table) (items : list ref) (w w' : Knapsack.walk) :
  Knapsack.step value items w = Ok w' ->
  S (Knapsack.w_i w') = Knapsack.w_i w.
Proof.
  unfold Knapsack.step. destruct (Knapsack.w_i w) as [|i']; [done|].
  destruct (num_neqb _ _); [destruct (items !! i')|]; by intros [= <-].
Qed.

Section Backtracking.
Context (h0 : store) (items : list ref) (cols : nat) (value : table).
Context (Hitems : integral_items h0 items).
Context (Hvalue : forall i, i <= length items ->
                    value !! i = Some (row_at cols (h0 <$> items) i)).
Let its := h0 <$> items.
Let inv := walk_inv h0 items cols.

Lemma read_entry (i c : nat) :
  i <= length items -> read value i (of_nat c) = entry cols its i c.
Proof. intros Hi. unfold read. by rewrite Hvalue. Qed.

(** One turn from a state of the loop: it does not raise, it keeps the
    invariant, and it appends to the allocation at most the item at the
    row it leaves. *)
Lemma step_inv (w : Knapsack.walk) :
  inv w -> num_gt (Knapsack.w_curValue w) zero = true ->
  exists w',
    Knapsack.step value items w = Ok w' /\ inv w' /\
    (Knapsack.w_allocation w' = Knapsack.w_allocation w \/
     exists r, items !! Knapsack.w_i w' = Some r /\
               Knapsack.w_allocation w' = Knapsack.w_allocation w ++ [r]).
Proof.
  intros (Hi & (c & Hc & Hcap & Hcur) & Hstore) Hgt.
  unfold Knapsack.step. destruct (Knapsack.w_i w) as [|i] eqn:Ei.
  { rewrite Hcur, entry_row_0 in Hgt by done. discriminate. }
  rewrite Hcap, read_entry, Hcur by lia.
  destruct (num_neqb _ _) eqn:Hne.
  - destruct (lookup_lt_is_Some_2 items i ltac:(lia)) as [r Hr]. rewrite Hr.
    pose proof Hitems as Hall. unfold integral_items in Hall.
    rewrite Forall_forall in Hall.
    destruct (Hall r) as [[wr Hw] _]; [by eapply list_elem_of_lookup_2|].
    assert (Hfit : wr <= c) by (by eapply entry_differs_fits).
    set (h1 := assign_solutionCapacity _ _ _).
    set (h2 := assign_solutionValue _ _ _).
    assert (Hframe : forall r', Item.capacity (h2 r') = Item.capacity (h0 r') /\
                                Item.payoff (h2 r') = Item.payoff (h0 r')).
    { intros r'. subst h2 h1.
      destruct (assign_solution_frame
                  (assign_solutionCapacity (Knapsack.w_store w) r
                     (Item.capacity (Knapsack.w_store w r))) r
                  (Item.payoff (assign_solutionCapacity (Knapsack.w_store w) r
                     (Item.capacity (Knapsack.w_store w r)) r)) r')
        as [_ [-> ->]].
      destruct (assign_solution_frame (Knapsack.w_store w) r
                  (Item.capacity (Knapsack.w_store w r)) r') as [[-> ->] _].
      apply Hstore. }
    destruct (Hframe r) as [Hcr _]. rewrite Hcr, Hw, num_sub_of_nat by done.
    eexists. split; [reflexivity|]. split.
    + split; [simpl; lia|]. split; [|exact Hframe].
      exists (c - wr). split; [lia|]. split; [reflexivity|].
      simpl. apply read_entry. lia.
    + right. exists r. by split.
  - eexists. split; [reflexivity|]. split; [|by left].
    split; [simpl; lia|]. split; [|exact Hstore].
    exists c. split; [done|]. by split.
Qed.

Lemma turn_inv (w w' : Knapsack.walk) :
  inv w -> turn value items w w' -> inv w'.
Proof.
  intros Hw [Hgt Hstep].
  destruct (step_inv w Hw Hgt) as (w'' & Hstep' & Hinv & _).
  rewrite Hstep in Hstep'. by injection Hstep' as ->.
Qed.

Lemma reachable_inv (w w' : Knapsack.walk) :
  inv w -> rtc (turn value items) w w' -> inv w'.
Proof. intros Hw Hrtc. induction Hrtc; eauto using turn_inv. Qed.

(** From every state of the loop, the loop ends within as many turns as
    the row index counts, with a current value of 0; the items it
    appends are those at strictly decreasing positions below the row it
    starts from. *)
Lemma backtrack_run (w : Knapsack.walk) :
  inv w ->
  exists j w' positions picked,
    j <= Knapsack.w_i w /\
    nsteps (turn value items) j w w' /\
    Knapsack.w_curValue w' = zero /\
    (forall fuel, j <= fuel -> Knapsack.backtrack fuel value items w = Ok w') /\
    Knapsack.w_allocation w' = Knapsack.w_allocation w ++ picked /\
    at_positions items positions picked /\
    Forall (fun p => p < Knapsack.w_i w) positions /\
    strictly_decreasing positions.
Proof.
  remember (Knapsack.w_i w) as k eqn:Hk. revert w Hk.
  induction k as [|k IH]; intros w Hk Hinv.
  - exists 0, w, [], []. split; [done|].
    assert (Hcur : Knapsack.w_curValue w = zero).
    { destruct Hinv as (_ & (c & Hc & _ & Hcur) & _).
      rewrite Hcur, <- Hk. by apply entry_row_0. }
    split; [constructor|]. split; [done|].
    split; [intros [|fuel] _; simpl; by rewrite Hcur|].
    split; [by rewrite app_nil_r|]. repeat split; constructor.
  - destruct (num_gt (Knapsack.w_curValue w) zero) eqn:Hgt.
    + destruct (step_inv w Hinv Hgt) as (w1 & Hstep & Hinv1 & Halloc).
      pose proof (step_row _ _ _ _ Hstep) as Hrow.
      assert (Hk1 : k = Knapsack.w_i w1) by lia.
      destruct (IH w1 Hk1 Hinv1)
        as (j & w' & positions & picked & Hj & Hsteps & Hcur & Hfuel
            & Happ & Hat & Hlt & Hdec).
      assert (Hrun : forall fuel, S j <= fuel ->
                Knapsack.backtrack fuel value items w = Ok w').
      { intros [|fuel] Hf; [lia|]. cbn [Knapsack.backtrack].
        rewrite Hgt, Hstep. cbn [mbind result_bind]. apply Hfuel. lia. }
      assert (Hturn : nsteps (turn value items) (S j) w w').
      { econstructor; [|exact Hsteps]. by split. }
      destruct Halloc as [Hsame | (r & Hr & Hpush)].
      * exists (S j), w', positions, picked.
        split; [lia|]. split; [done|]. split; [done|]. split; [done|].
        split; [by rewrite Happ, Hsame|]. split; [done|].
        split; [|done]. eapply Forall_impl; [exact Hlt|]. simpl. lia.
      * exists (S j), w', (Knapsack.w_i w1 :: positions), (r :: picked).
        split; [lia|]. split; [done|]. split; [done|]. split; [done|].
        split; [by rewrite Happ, Hpush, <- app_assoc|].
        split; [by constructor|].
        split; [constructor; [lia|]; eapply Forall_impl; [exact Hlt|]; simpl; lia|].
        constructor; [done|]. eapply Forall_impl; [exact Hlt|]. simpl. lia.
    + exists 0, w, [], []. split; [lia|].
      assert (Hcur : Knapsack.w_curValue w = zero).
      { apply canonical_nonneg_not_gt; [|done].
        destruct Hinv as (Hi & (c & Hc & _ & ->) & _).
        by apply entry_canonical. }
      split; [constructor|]. split; [done|].
      split; [intros [|fuel] _; cbn [Knapsack.backtrack]; by rewrite Hgt|].
      split; [by rewrite app_nil_r|]. repeat split; constructor.
Qed.

End Backtracking.

Lemma start_inv (h : store) (items : list ref) (C : nat) (value : table) :
  (forall i, i <= length items ->
     value !! i = Some (row_at (C + 1) (h <$> items) i)) ->
  walk_inv h items (C + 1)
    (Knapsack.Walk (length items) (of_nat C)
       (read value (length items) (of_nat C)) h []).
Proof.
  intros Hvalue. split; [done|]. split; [|done].
  exists C. split; [lia|]. split; [done|]. simpl.
  unfold read, entry. by rewrite Hvalue.
Qed.

(** C8.  When every item has a natural number for capacity and a finite
    payoff that is not negative, the table of [allocate] is built without
    raising, and the backtracking loop started at its last cell ends: the
    current value is 0 after at most as many turns as there are items.
    In every turn the row index goes down by exactly one, and in every
    state the loop goes through the column index is a natural number, a
    column of the table. *)
Theorem backtracking_terminates (this : Knapsack.t) (h : store) :
  integral_items h (Knapsack._items this) ->
  let items := Knapsack._items this in
  let n := Knapsack.itemCount this in
  let C := Knapsack._capacity this in
  exists value,
    Knapsack.fill_rows items h (C + 1) (create (n + 1) (C + 1) zero)
      (seq 1 (n + 1 - 1)) = Ok value /\
    let start := Knapsack.Walk n (of_nat C) (read value n (of_nat C)) h [] in
    (exists turns final,
       turns <= n /\
       nsteps (turn value items) turns start final /\
       Knapsack.w_curValue final = zero /\
       forall fuel, turns <= fuel ->
         Knapsack.backtrack fuel value items start = Ok final) /\
    (forall w w',
       rtc (turn value items) start w -> turn value items w w' ->
       S (Knapsack.w_i w') = Knapsack.w_i w) /\
    (forall w,
       rtc (turn value items) start w ->
       exists c : nat, Knapsack.w_capacity w = of_nat c /\ c <= C).
Proof.
  intros Hitems items n C.
  destruct (fill_rows_table items h (C + 1)) as (value & Hfill & _ & Hvalue).
  exists value. split; [exact Hfill|]. intros start.
  pose proof (start_inv h items C value Hvalue) as Hstart.
  split; [|split].
  - destruct (backtrack_run h items (C + 1) value Hitems Hvalue _ Hstart)
      as (j & w' & _ & _ & Hj & Hsteps & Hcur & Hfuel & _).
    by exists j, w'.
  - intros w w' _ [_ Hstep]. by eapply step_row.
  - intros w Hreach.
    destruct (reachable_inv h items (C + 1) value Hitems Hvalue _ _
                Hstart Hreach) as (_ & (c & Hc & Hcap & _) & _).
    exists c. split; [done | lia].
Qed.

Lemma integral_items_example :
  integral_items
    (store_of [item_with 5 10; item_with 4 40; item_with 6 30; item_with 3 50])
    (Knapsack._items (binary_of 10 4)).
Proof.
  repeat constructor;
    first [ by exists 5 | by exists 4 | by exists 6 | by exists 3 ].
Qed.

(** On the first problem of the test suite the loop ends within four
    turns. *)
Lemma backtracking_terminates_witness :
  exists value turns final,
    Knapsack.fill_rows (Knapsack._items (binary_of 10 4))
      (store_of [item_with 5 10; item_with 4 40; item_with 6 30; item_with 3 50])
      11 (create 5 11 zero) (seq 1 4) = Ok value /\
    turns <= 4 /\
    Knapsack.backtrack turns value (Knapsack._items (binary_of 10 4))
      (Knapsack.Walk 4 (of_nat 10) (read value 4 (of_nat 10))
         (store_of [item_with 5 10; item_with 4 40; item_with 6 30;
                    item_with 3 50]) [])
      = Ok final /\
    Knapsack.w_curValue final = zero.
Proof.
  destruct (backtracking_terminates (binary_of 10 4) _ integral_items_example)
    as (value & Hfill & (turns & final & Hturns & _ & Hcur & Hfuel) & _).
  exists value, turns, final. split; [exact Hfill|]. split; [exact Hturns|].
  split; [exact (Hfuel turns (le_n turns)) | exact Hcur].
Defined.

(** ** The order of the items returned by the binary allocator *)

(** C6.  With two items or more, natural numbers for the capacities of
    the items, payoffs that are finite and not negative, and a positive
    capacity, [allocate] returns, and the items it returns are those at
    strictly decreasing positions of the collection: reverse insertion
    order.  The collection itself and the allocator's solution capacity
    are left as they were. *)
Theorem allocate_reverse_insertion_order
    (fuel : nat) (this : Knapsack.t) (h : store) :
  2 <= Knapsack.itemCount this ->
  0 < Knapsack._capacity this ->
  integral_items h (Knapsack._items this) ->
  Knapsack.itemCount this <= fuel ->
  exists allocation this' h' positions,
    Knapsack.allocate fuel this h = Ok (allocation, this', h') /\
    at_positions (Knapsack._items this) positions allocation /\
    strictly_decreasing positions /\
    Knapsack._items this' = Knapsack._items this /\
    Knapsack.solutionCapacity this' = Knapsack.solutionCapacity this.
Proof.
  intros Hcount Hcap Hitems Hfuel. unfold Knapsack.itemCount in *.
  destruct (fill_rows_table (Knapsack._items this) h (Knapsack._capacity this + 1))
    as (value & Hfill & _ & Hvalue).
  pose proof (start_inv h _ _ value Hvalue) as Hstart.
  destruct (backtrack_run h _ _ value Hitems Hvalue _ Hstart)
    as (j & w' & positions & picked & Hj & _ & _ & Hrun & Happ & Hat & _ & Hdec).
  simpl in Hj, Happ.
  unfold Knapsack.allocate.
  destruct (Nat.eqb_neq (length (Knapsack._items this)) 0) as [_ ->]; [|lia].
  destruct (Nat.eqb_neq (Knapsack._capacity this) 0) as [_ ->]; [|lia].
  destruct (Nat.eqb_neq (length (Knapsack._items this)) 1) as [_ ->]; [|lia].
  rewrite Hfill. cbn [mbind result_bind Knapsack._items Knapsack._solutionPayoff].
  rewrite !Nat.add_sub, (Hrun fuel) by lia. cbn [mbind result_bind].
  eexists _, _, _, positions. split; [reflexivity|].
  rewrite Happ. by repeat split.
Qed.

(** On the first problem of the test suite the items returned are those
    at positions 3 and 1. *)
Lemma allocate_reverse_insertion_order_witness :
  exists this' h' positions,
    Knapsack.allocate 4 (binary_of 10 4)
      (store_of [item_with 5 10; item_with 4 40; item_with 6 30; item_with 3 50])
      = Ok ([3; 1], this', h') /\
    at_positions (Knapsack._items (binary_of 10 4)) positions [3; 1] /\
    strictly_decreasing positions.
Proof.
  assert (Hcount : 2 <= Knapsack.itemCount (binary_of 10 4))
    by (vm_compute; lia).
  assert (Hcap : 0 < Knapsack._capacity (binary_of 10 4))
    by (vm_compute; lia).
  assert (Hfuel : Knapsack.itemCount (binary_of 10 4) <= 4)
    by (vm_compute; lia).
  destruct (allocate_reverse_insertion_order 4 (binary_of 10 4) _
              Hcount Hcap integral_items_example Hfuel)
    as (allocation & this' & h' & positions & Hrun & Hat & Hdec & _).
  assert (Hallocation : allocation = [3; 1]).
  { destruct binary_example as (k & s & Hex & _).
    rewrite Hex in Hrun. injection Hrun as Ha _ _. symmetry. exact Ha. }
  subst allocation. exists this', h', positions.
  split; [exact Hrun|]. split; [exact Hat | exact Hdec].
Defined.

(** ** Optimality of the value table *)

Lemma qv_add (a b : number) :
  is_finite a = true -> is_finite b = true ->
  (qv (num_add a b) == qv a + qv b)%Q.
Proof. destruct a, b; try done. intros _ _. simpl. apply Qred_correct. Qed.


Lemma num_eqb_qv (a b : number) :
  is_finite a = true -> is_finite b = true ->
  num_eqb a b = true <-> (qv a == qv b)%Q.
Proof. destruct a, b; try done. intros _ _. apply num_eqb_Fin. Qed.



Lemma finite_nonneg_finite (a : number) :
  Item.finite_nonneg a -> is_finite a = true.
Proof. by intros [H _]. Qed.

Lemma finite_add (a b : number) :
  is_finite a = true -> is_finite b = true -> is_finite (num_add a b) = true.
Proof. by destruct a, b. Qed.

Lemma total_weight_cons (h : store) (r : ref) (items : list ref) :
  total_weight h (r :: items) = weight h r + total_weight h items.
Proof. reflexivity. Qed.

Section Optimal.
Context (cols : nat) (h : store) (items : list ref).
Context (Hitems : integral_items h items).
Local Abbreviation its := (h <$> items).

Lemma item_at (i : nat) (r : ref) :
  items !! i = Some r ->
  Item.capacity (h r) = of_nat (weight h r) /\
  Item.finite_nonneg (Item.payoff (h r)).
Proof.
  intros Hr. pose proof Hitems as Hall. unfold integral_items in Hall.
  rewrite Forall_forall in Hall.
  destruct (Hall r) as [[w Hw] Hp]; [by eapply list_elem_of_lookup_2|].
  split; [|done]. unfold weight. by rewrite Hw, floor_nat_of_nat.
Qed.

Lemma entry_finite (i c : nat) :
  i <= length items -> c < cols -> is_finite (entry cols its i c) = true.
Proof.
  intros. by apply canonical_nonneg_finite, entry_canonical.
Qed.





End Optimal.

(** ** What the backtracking loop picks *)

Lemma num_max_not_r (a b : number) :
  is_finite a = true -> is_finite b = true ->
  num_eqb b (num_max a b) = false -> num_max a b = a.
Proof.
  destruct a as [| | |x], b as [| | |y]; try done. intros _ _.
  unfold num_max. destruct (num_lt (Fin x) (Fin y)); [|done].
  intros H. by rewrite num_eqb_refl_finite in H.
Qed.

Section Accounting.
Context (h0 : store) (items : list ref) (cols : nat) (value : table).
Context (Hitems : integral_items h0 items).
Context (Hvalue : forall i, i <= length items ->
                    value !! i = Some (row_at cols (h0 <$> items) i)).
Local Abbreviation its := (h0 <$> items).
Local Abbreviation inv := (walk_inv h0 items cols).

Lemma total_payoff_finite_in (sel : list ref) :
  Forall (fun r => r ∈ items) sel ->
  is_finite (total Item.payoff h0 sel) = true.
Proof.
  induction 1 as [|r sel Hr _ IH]; [done|]. simpl.
  apply finite_add; [|done].
  pose proof Hitems as Hall. unfold integral_items in Hall.
  rewrite Forall_forall in Hall.
  destruct (Hall r Hr) as [_ Hp]. by apply finite_nonneg_finite.
Qed.

(** One turn of the loop either leaves the current value and the column
    as they are, or picks the item of the row: the column goes down by
    its capacity and the current value by its payoff. *)
Lemma step_account (w : Knapsack.walk) :
  inv w -> num_gt (Knapsack.w_curValue w) zero = true ->
  exists w',
    Knapsack.step value items w = Ok w' /\
    ((Knapsack.w_allocation w' = Knapsack.w_allocation w /\
      Knapsack.w_capacity w' = Knapsack.w_capacity w /\
      (qv (Knapsack.w_curValue w) == qv (Knapsack.w_curValue w'))%Q) \/
     (exists r c,
        items !! Knapsack.w_i w' = Some r /\
        Knapsack.w_allocation w' = Knapsack.w_allocation w ++ [r] /\
        Knapsack.w_capacity w = of_nat c /\ weight h0 r <= c /\
        Knapsack.w_capacity w' = of_nat (c - weight h0 r) /\
        (qv (Knapsack.w_curValue w) ==
         qv (Item.payoff (h0 r)) + qv (Knapsack.w_curValue w'))%Q)).
Proof.
  intros Hinv Hgt.
  destruct (step_inv h0 items cols value Hitems Hvalue w Hinv Hgt)
    as (w' & Hstep & Hinv' & _).
  exists w'. split; [exact Hstep|].
  destruct Hinv as (Hi & (c & Hc & Hcap & Hcur) & Hstore).
  destruct Hinv' as (_ & (c' & Hc' & Hcap' & Hcur') & _).
  pose proof (step_row _ _ _ _ Hstep) as Hrow.
  rewrite <- Hrow in Hcur, Hi.
  set (i := Knapsack.w_i w') in *.
  unfold Knapsack.step in Hstep. rewrite <- Hrow in Hstep. fold i in Hstep.
  rewrite Hcap in Hstep. unfold read in Hstep. rewrite Hvalue in Hstep by lia.
  fold (entry cols its i c) in Hstep. rewrite Hcur in Hstep.
  assert (Hfi : is_finite (entry cols its i c) = true).
  { apply (entry_finite cols h0 items Hitems); lia. }
  assert (HfS : is_finite (entry cols its (S i) c) = true).
  { apply (entry_finite cols h0 items Hitems); lia. }
  destruct (num_neqb _ _) eqn:Hne.
  - destruct (items !! i) as [r|] eqn:Hr; [|done].
    destruct (item_at h0 items Hitems i r Hr) as [Hw Hp].
    assert (Hfit : weight h0 r <= c).
    { by eapply (entry_differs_fits cols h0 items Hitems i c _ r). }
    assert (Hc1 : 1 <= c).
    { destruct (decide (c = 0)) as [->|]; [|lia].
      rewrite !(entry_column_0 cols h0 items) in Hne by lia. discriminate. }
    match type of Hstep with
    | Ok ?t = Ok _ => assert (Hw' : t = w') by congruence
    end.
    right. exists r, c.
    split; [done|]. split; [by rewrite <- Hw'|]. split; [done|]. split; [done|].
    assert (Hcap2 : Knapsack.w_capacity w' = of_nat (c - weight h0 r)).
    { rewrite <- Hw'. cbn [Knapsack.w_capacity].
      match goal with
      | |- num_sub _ (Item.capacity (?s r)) = _ =>
          assert (Hcs : Item.capacity (s r) = Item.capacity (h0 r))
      end.
      { destruct (assign_solution_frame
                    (assign_solutionCapacity (Knapsack.w_store w) r
                       (Item.capacity (Knapsack.w_store w r))) r
                    (Item.payoff (assign_solutionCapacity (Knapsack.w_store w) r
                       (Item.capacity (Knapsack.w_store w r)) r)) r)
          as [_ [-> _]].
        destruct (assign_solution_frame (Knapsack.w_store w) r
                    (Item.capacity (Knapsack.w_store w r)) r) as [[-> _] _].
        apply Hstore. }
      rewrite Hcs, Hw. by apply num_sub_of_nat. }
    split; [exact Hcap2|].
    assert (Hc'eq : c' = c - weight h0 r).
    { rewrite Hcap2 in Hcap'.
      apply (f_equal index_of) in Hcap'. rewrite !index_of_of_nat in Hcap'.
      by injection Hcap'. }
    rewrite Hcur, Hcur', Hc'eq.
    rewrite (entry_row_S cols h0 items i c _ r Hr Hw) by lia.
    rewrite bool_decide_true by done.
    assert (Hfp : is_finite (Item.payoff (h0 r)) = true)
      by (by apply finite_nonneg_finite).
    assert (Hfe : is_finite (entry cols its i (c - weight h0 r)) = true).
    { apply (entry_finite cols h0 items Hitems); lia. }
    unfold num_neqb in Hne. apply negb_true_iff in Hne.
    rewrite (entry_row_S cols h0 items i c _ r Hr Hw) in Hne by lia.
    rewrite bool_decide_true in Hne by done.
    rewrite (num_max_not_r _ _ (finite_add _ _ Hfp Hfe) Hfi Hne).
    by apply qv_add.
  - match type of Hstep with
    | Ok ?t = Ok _ => assert (Hw' : t = w') by congruence
    end.
    left.
    split; [by rewrite <- Hw'|]. split; [by rewrite <- Hw', Hcap|].
    unfold num_neqb in Hne. apply negb_false_iff in Hne.
    apply num_eqb_qv in Hne; [|done..].
    rewrite Hcur, <- Hw'. cbn [Knapsack.w_curValue].
    fold (entry cols its i c). by symmetry.
Qed.

(** The items the loop picks pay the current value it starts from, and
    fit in the column it starts from. *)
Lemma backtrack_account (w : Knapsack.walk) :
  inv w ->
  exists j w' picked,
    j <= Knapsack.w_i w /\
    (forall fuel, j <= fuel -> Knapsack.backtrack fuel value items w = Ok w') /\
    Knapsack.w_allocation w' = Knapsack.w_allocation w ++ picked /\
    Forall (fun r => r ∈ items) picked /\
    (qv (Knapsack.w_curValue w) == qv (total Item.payoff h0 picked))%Q /\
    exists c, Knapsack.w_capacity w = of_nat c /\ total_weight h0 picked <= c.
Proof.
  remember (Knapsack.w_i w) as k eqn:Hk. revert w Hk.
  induction k as [|k IH]; intros w Hk Hinv.
  - exists 0, w, []. split; [done|].
    destruct Hinv as (_ & (c & Hc & Hcap & Hcur) & _).
    rewrite <- Hk, (entry_row_0 cols h0 items) in Hcur by done.
    split; [intros [|fuel] _; simpl; by rewrite Hcur|].
    split; [by rewrite app_nil_r|]. split; [constructor|].
    split; [by rewrite Hcur|]. exists c. split; [done|]. unfold total_weight. simpl. lia.
  - destruct (num_gt (Knapsack.w_curValue w) zero) eqn:Hgt.
    + destruct (step_account w Hinv Hgt) as (w1 & Hstep & Hcase).
      assert (Hinv1 : inv w1).
      { apply (turn_inv h0 items cols value Hitems Hvalue w w1 Hinv).
        by split. }
      pose proof (step_row _ _ _ _ Hstep) as Hrow.
      destruct (IH w1 ltac:(lia) Hinv1)
        as (j & w' & picked & Hj & Hfuel & Happ & Hin & Hsum & c1 & Hcap1 & Hw1).
      assert (Hrun : forall fuel, S j <= fuel ->
                Knapsack.backtrack fuel value items w = Ok w').
      { intros [|fuel] Hf; [lia|]. cbn [Knapsack.backtrack].
        rewrite Hgt, Hstep. cbn [mbind result_bind]. apply Hfuel. lia. }
      destruct Hcase as [(Hsame & Hcap & Hcur)
                        | (r & c & Hr & Hpush & Hcap & Hfit & Hcap' & Hcur)].
      * exists (S j), w', picked. split; [lia|]. split; [done|].
        split; [by rewrite Happ, Hsame|]. split; [done|].
        split; [by rewrite Hcur|]. exists c1. split; [by rewrite <- Hcap|done].
      * exists (S j), w', (r :: picked). split; [lia|]. split; [done|].
        split; [by rewrite Happ, Hpush, <- app_assoc|].
        assert (Hrin : r ∈ items) by (by eapply list_elem_of_lookup_2).
        split; [by constructor|].
        assert (Hc1 : c1 = c - weight h0 r).
        { rewrite Hcap' in Hcap1. apply (f_equal index_of) in Hcap1.
          rewrite !index_of_of_nat in Hcap1. by injection Hcap1. }
        split.
        -- cbn [total foldr]. fold (total Item.payoff h0 picked).
           rewrite qv_add, Hcur, Hsum; [reflexivity| |].
           ++ pose proof Hitems as Hall. unfold integral_items in Hall.
              rewrite Forall_forall in Hall.
              destruct (Hall r Hrin) as [_ Hp]. by apply finite_nonneg_finite.
           ++ by apply total_payoff_finite_in.
        -- exists c. split; [done|]. rewrite total_weight_cons. lia.
    + exists 0, w, []. split; [lia|].
      assert (Hcur : Knapsack.w_curValue w = zero).
      { apply canonical_nonneg_not_gt; [|done].
        destruct Hinv as (Hi & (c & Hc & _ & ->) & _).
        by apply entry_canonical. }
      split; [intros [|fuel] _; cbn [Knapsack.backtrack]; by rewrite Hgt|].
      split; [by rewrite app_nil_r|]. split; [constructor|].
      split; [by rewrite Hcur|].
      destruct Hinv as (_ & (c & Hc & Hcap & _) & _).
      exists c. split; [done|]. unfold total_weight. simpl. lia.
Qed.

End Accounting.





(** * Further properties *)

(** ** Items *)

(** X1.  The clone of a well-formed item has its capacity, payoff and
    risks, and is otherwise a new item: solution value and solution
    capacity 0, no name, id 0. *)
Theorem clone_copies_inputs (it : Item.t) :
  Item.wf it ->
  Item.capacity (Item.clone it) = Item.capacity it /\
  Item.payoff (Item.clone it) = Item.payoff it /\
  Item.capacityRisk (Item.clone it) = Item.capacityRisk it /\
  Item.payoffRisk (Item.clone it) = Item.payoffRisk it /\
  Item.solutionValue (Item.clone it) = zero /\
  Item.solutionCapacity (Item.clone it) = zero /\
  Item.name (Item.clone it) = EmptyString /\
  Item.id (Item.clone it) = zero.
Proof.
  intros [Hc Hp _ _ Hcr Hpr].
  apply finite_nonneg_Fin in Hc as (c & Hc & Hc0).
  apply finite_nonneg_Fin in Hp as (p & Hp & Hp0).
  destruct (Item._capacityRisk it) as [| | |cr] eqn:Ecr; try discriminate.
  destruct (Item._payoffRisk it) as [| | |pr] eqn:Epr; try discriminate.
  assert (Hgc : is_valid_nonneg (VNum (Fin c)) = true)
    by (apply is_valid_nonneg_number; eauto).
  assert (Hgp : is_valid_nonneg (VNum (Fin p)) = true)
    by (apply is_valid_nonneg_number; eauto).
  unfold Item.clone. rewrite Hc, Hp.
  unfold Item.set_payoffRisk, Item.set_capacityRisk, Item.set_payoff,
    Item.set_capacity, Item.capacity, Item.payoff, Item.capacityRisk,
    Item.payoffRisk, Item.solutionValue, Item.solutionCapacity.
  cbn [Item._capacity Item._payoff Item._value Item._solutionCapacity
       Item._capacityRisk Item._payoffRisk Item.name Item.id Item.new].
  rewrite Hgc, Hgp, Hc, Hp, Ecr, Epr. by repeat split.
Qed.

Lemma wf_item_with : Item.wf (item_with 3 100).
Proof. by repeat split. Qed.

Lemma clone_copies_inputs_witness :
  Item.capacity (Item.clone (Item.set_solutionValue (item_with 3 100) (VNum (Fin 7))))
    = Fin 3 /\
  Item.solutionValue
    (Item.clone (Item.set_solutionValue (item_with 3 100) (VNum (Fin 7)))) = zero.
Proof.
  assert (Hwf : Item.wf (Item.set_solutionValue (item_with 3 100) (VNum (Fin 7)))).
  { by repeat split. }
  destruct (clone_copies_inputs _ Hwf) as (Hc & _ & _ & _ & Hv & _).
  split; [exact Hc | exact Hv].
Defined.

(** X2.  A new item is well formed, and every mutator, whatever it is
    given, and [clone] return a well-formed item from a well-formed one:
    capacity, payoff and solution value are finite and not negative, the
    risks and the solution capacity are finite. *)
Theorem item_well_formed (it : Item.t) (v : jsval) :
  Item.wf Item.new /\
  (Item.wf it ->
   Item.wf (Item.set_capacity it v) /\ Item.wf (Item.set_payoff it v) /\
   Item.wf (Item.set_solutionValue it v) /\
   Item.wf (Item.set_solutionCapacity it v) /\
   Item.wf (Item.set_capacityRisk it v) /\ Item.wf (Item.set_payoffRisk it v) /\
   Item.wf (Item.clone it)).
Proof.
  split; [apply wf_new|]. intros Hwf.
  destruct (wf_mutators it v Hwf) as (H1 & H2 & H3 & H4 & H5 & H6).
  repeat (split; [assumption|]).
  unfold Item.clone.
  pose proof wf_new as H0.
  apply (wf_mutators _ (VNum (Item._capacity it))) in H0 as (H0 & _).
  apply (wf_mutators _ (VNum (Item._payoff it))) in H0 as (_ & H0 & _).
  apply (wf_mutators _ (VNum (Item._capacityRisk it))) in H0
    as (_ & _ & _ & _ & H0 & _).
  by apply (wf_mutators _ (VNum (Item._payoffRisk it))) in H0
    as (_ & _ & _ & _ & _ & H0).
Qed.

Lemma item_well_formed_witness :
  Item.wf (Item.set_capacity (item_with 3 100) (VNum NaN)) /\
  Item.wf (Item.set_payoff (item_with 3 100) (VNum (Fin (-1)))).
Proof.
  destruct (item_well_formed (item_with 3 100) (VNum NaN)) as [_ H1].
  destruct (item_well_formed (item_with 3 100) (VNum (Fin (-1)))) as [_ H2].
  split; [apply (H1 wf_item_with) | apply (H2 wf_item_with)].
Defined.

(** ** The collection of an allocator *)

Lemma remove_first_absent (r : ref) (items : list ref) :
  r ∉ items -> ItemAllocation.remove_first r items = items.
Proof.
  induction items as [|x items IH]; [done|]. intros H.
  apply not_elem_of_cons in H as [Hx Hitems]. simpl.
  destruct (Nat.eqb_spec r x); [done|]. by rewrite IH.
Qed.

Lemma remove_first_present (r : ref) (items : list ref) :
  r ∈ items ->
  exists before after,
    items = before ++ r :: after /\ (r ∉ before) /\
    ItemAllocation.remove_first r items = before ++ after.
Proof.
  induction items as [|x items IH]; [by intros ?%elem_of_nil|].
  intros H. simpl. destruct (Nat.eqb_spec r x) as [->|Hne].
  - exists [], items. split; [done|]. split; [apply not_elem_of_nil|done].
  - apply elem_of_cons in H as [?|H]; [done|].
    destruct (IH H) as (before & after & -> & Hb & ->).
    exists (x :: before), after. split; [done|]. split; [|done].
    apply not_elem_of_cons. by split.
Qed.

(** X3.  [removeItem] of either allocator removes the first reference
    identical to the item and nothing else: the references before it and
    after it are kept in order, later duplicates included, and the count
    goes down by one.  When the item is not in the collection, or the
    value is not an item, the allocator is left as it was. *)
Theorem removeItem_first_match
    (a : ItemAllocation.t) (k : Knapsack.t) (r : ref) :
  (r ∉ ItemAllocation._items a ->
   ItemAllocation.removeItem a (VItem r) = a) /\
  (r ∉ Knapsack._items k -> Knapsack.removeItem k (VItem r) = k) /\
  (r ∈ ItemAllocation._items a ->
   exists before after,
     ItemAllocation._items a = before ++ r :: after /\ (r ∉ before) /\
     ItemAllocation._items (ItemAllocation.removeItem a (VItem r))
       = before ++ after /\
     S (ItemAllocation.itemCount (ItemAllocation.removeItem a (VItem r)))
       = ItemAllocation.itemCount a) /\
  (r ∈ Knapsack._items k ->
   exists before after,
     Knapsack._items k = before ++ r :: after /\ (r ∉ before) /\
     Knapsack._items (Knapsack.removeItem k (VItem r)) = before ++ after /\
     S (Knapsack.itemCount (Knapsack.removeItem k (VItem r)))
       = Knapsack.itemCount k) /\
  (forall v, (forall r', v <> VItem r') ->
     ItemAllocation.removeItem a v = a /\ Knapsack.removeItem k v = k).
Proof.
  split; [|split; [|split; [|split]]].
  - intros H. destruct a. unfold ItemAllocation.removeItem. simpl in *.
    by rewrite remove_first_absent.
  - intros H. destruct k. unfold Knapsack.removeItem. simpl in *.
    by rewrite remove_first_absent.
  - intros H. destruct (remove_first_present r _ H) as (b & c & Hi & Hb & Hr).
    exists b, c. split; [done|]. split; [done|].
    unfold ItemAllocation.itemCount. simpl. rewrite Hr, Hi, !length_app.
    split; [done|]. simpl. lia.
  - intros H. destruct (remove_first_present r _ H) as (b & c & Hi & Hb & Hr).
    exists b, c. split; [done|]. split; [done|].
    unfold Knapsack.itemCount. simpl. rewrite Hr, Hi, !length_app.
    split; [done|]. simpl. lia.
  - intros v Hv. destruct v as [| | |r'|]; try done. by destruct (Hv r').
Qed.

Lemma removeItem_first_match_witness :
  ItemAllocation._items
    (ItemAllocation.removeItem (continuous_of 8 3) (VItem 1)) = [0; 2] /\
  Knapsack.removeItem (binary_of 8 3) (VItem 7) = binary_of 8 3.
Proof.
  destruct (removeItem_first_match (continuous_of 8 3) (binary_of 8 3) 1)
    as (_ & _ & Hin & _).
  destruct (removeItem_first_match (continuous_of 8 3) (binary_of 8 3) 7)
    as (_ & Hout & _).
  split.
  - destruct Hin as (before & after & Hitems & Hb & Hr & _).
    { vm_compute. apply list_elem_of_In. simpl. tauto. }
    rewrite Hr. vm_compute in Hitems.
    destruct before as [|x [|y before]]; simplify_eq/=; done.
  - apply Hout. vm_compute. intros H%list_elem_of_In. simpl in H. lia.
Defined.

Lemma fold_addItem_continuous (values : list jsval) (a : ItemAllocation.t) :
  fold_left ItemAllocation.addItem values a =
    ItemAllocation.mk (ItemAllocation._strategy a)
      (ItemAllocation._items a ++ refs_of values)
      (ItemAllocation._capacity a) (ItemAllocation._data a)
      (ItemAllocation._solutionCapacity a) (ItemAllocation._solutionPayoff a).
Proof.
  revert a. induction values as [|v values IH]; intros a.
  { destruct a. simpl. by rewrite app_nil_r. }
  cbn [fold_left]. rewrite IH.
  destruct v as [| | |r|]; try done.
  cbn. by rewrite <- app_assoc.
Qed.

Lemma fold_addItem_binary (values : list jsval) (k : Knapsack.t) :
  fold_left Knapsack.addItem values k =
    Knapsack.mk (Knapsack._items k ++ refs_of values) (Knapsack._capacity k)
      (Knapsack._solutionCapacity k) (Knapsack._solutionPayoff k).
Proof.
  revert k. induction values as [|v values IH]; intros k.
  { destruct k. simpl. by rewrite app_nil_r. }
  cbn [fold_left]. rewrite IH.
  destruct v as [| | |r|]; try done.
  cbn. by rewrite <- app_assoc.
Qed.

(** X4.  After any sequence of calls of [addItem] the collection of
    either allocator is the collection before followed by the items
    among the values, in the order given: a value that is not an item is
    skipped, an item already present is added again, and nothing else of
    the allocator changes. *)
Theorem addItem_sequence
    (values : list jsval) (a : ItemAllocation.t) (k : Knapsack.t) :
  fold_left ItemAllocation.addItem values a =
    ItemAllocation.mk (ItemAllocation._strategy a)
      (ItemAllocation._items a ++ refs_of values)
      (ItemAllocation._capacity a) (ItemAllocation._data a)
      (ItemAllocation._solutionCapacity a) (ItemAllocation._solutionPayoff a) /\
  fold_left Knapsack.addItem values k =
    Knapsack.mk (Knapsack._items k ++ refs_of values) (Knapsack._capacity k)
      (Knapsack._solutionCapacity k) (Knapsack._solutionPayoff k) /\
  ItemAllocation.itemCount (fold_left ItemAllocation.addItem values a) =
    ItemAllocation.itemCount a + length (refs_of values) /\
  Knapsack.itemCount (fold_left Knapsack.addItem values k) =
    Knapsack.itemCount k + length (refs_of values).
Proof.
  split; [apply fold_addItem_continuous|].
  split; [apply fold_addItem_binary|].
  rewrite fold_addItem_continuous, fold_addItem_binary.
  unfold ItemAllocation.itemCount, Knapsack.itemCount. simpl.
  by rewrite !length_app.
Qed.

(** X5.  Adding an item that is not in the collection and removing it
    again leaves either allocator as it was.  When the item is already
    in the collection, it is the earlier reference that goes: the
    collection ends up with the item moved to the end. *)
Theorem addItem_removeItem (a : ItemAllocation.t) (k : Knapsack.t) (r : ref) :
  (r ∉ ItemAllocation._items a ->
   ItemAllocation.removeItem (ItemAllocation.addItem a (VItem r)) (VItem r) = a) /\
  (r ∉ Knapsack._items k ->
   Knapsack.removeItem (Knapsack.addItem k (VItem r)) (VItem r) = k) /\
  (r ∈ ItemAllocation._items a ->
   ItemAllocation._items
     (ItemAllocation.removeItem (ItemAllocation.addItem a (VItem r)) (VItem r))
     = ItemAllocation.remove_first r (ItemAllocation._items a) ++ [r]) /\
  (r ∈ Knapsack._items k ->
   Knapsack._items
     (Knapsack.removeItem (Knapsack.addItem k (VItem r)) (VItem r))
     = ItemAllocation.remove_first r (Knapsack._items k) ++ [r]).
Proof.
  assert (Hout : forall items, r ∉ items ->
            ItemAllocation.remove_first r (items ++ [r]) = items).
  { induction items as [|x items IH]; intros H; simpl.
    - by rewrite Nat.eqb_refl.
    - apply not_elem_of_cons in H as [Hx H].
      destruct (Nat.eqb_spec r x); [done|]. by rewrite IH. }
  assert (Hin : forall items, r ∈ items ->
            ItemAllocation.remove_first r (items ++ [r]) =
            ItemAllocation.remove_first r items ++ [r]).
  { induction items as [|x items IH]; intros H; [by apply elem_of_nil in H|].
    simpl. destruct (Nat.eqb_spec r x) as [|Hne]; [done|].
    apply elem_of_cons in H as [?|H]; [done|]. by rewrite IH. }
  split; [|split; [|split]].
  - intros H. destruct a. cbn in *. by rewrite Hout.
  - intros H. destruct k. cbn in *. by rewrite Hout.
  - intros H. cbn. by apply Hin.
  - intros H. cbn. by apply Hin.
Qed.

Lemma addItem_removeItem_witness :
  ItemAllocation.removeItem
    (ItemAllocation.addItem (continuous_of 8 2) (VItem 5)) (VItem 5)
    = continuous_of 8 2 /\
  Knapsack._items
    (Knapsack.removeItem (Knapsack.addItem (binary_of 8 2) (VItem 0)) (VItem 0))
    = [1; 0].
Proof.
  destruct (addItem_removeItem (continuous_of 8 2) (binary_of 8 2) 5)
    as (Hout & _).
  destruct (addItem_removeItem (continuous_of 8 2) (binary_of 8 2) 0)
    as (_ & _ & _ & Hin).
  split.
  - apply Hout. vm_compute. intros H%list_elem_of_In. simpl in H. lia.
  - rewrite Hin; [reflexivity|]. vm_compute. constructor.
Defined.

(** ** Degenerate and small problems *)

(** The items returned by the greedy loop are the first items of the
    sequence it walks, and the first item is among them unless no
    capacity is left at the start. *)
Lemma greedy_prefix (strategy : object) (items : list ref) :
  total_strategy strategy ->
  forall this h allocation,
  exists k this' h',
    ItemAllocation.greedy strategy items this h allocation
      = Ok (allocation ++ take k items, this', h') /\
    k <= length items /\
    (items <> [] ->
     num_le (num_sub (ItemAllocation._capacity this)
               (ItemAllocation._solutionCapacity this)) zero = false ->
     0 < k).
Proof.
  intros Htotal. induction items as [|item rest IH]; intros this h allocation.
  { exists 0, this, h. rewrite app_nil_r. by repeat split. }
  cbn [ItemAllocation.greedy].
  destruct (num_le _ zero) eqn:Hslack.
  { exists 0, this, h. rewrite take_0, app_nil_r. split; [done|].
    split; [lia | done]. }
  destruct (Htotal h item (ItemAllocation._data this)) as [p ->].
  cbn [mbind result_bind].
  destruct (num_ge _ _).
  { eexists 1, _, _. split; [reflexivity|]. split; [simpl; lia | lia]. }
  match goal with
  | |- context [ItemAllocation.greedy strategy rest ?t ?s ?a] =>
      destruct (IH t s a) as (k & t' & s' & Hrun & Hk & _)
  end.
  exists (S k), t', s'. rewrite Hrun, <- app_assoc.
  split; [done|]. split; [simpl; lia | lia].
Qed.

(** X6.  With a capacity that is not negative and a strategy that answers
    for every item, [allocate] of the continuous allocator returns no
    item exactly when the collection is empty or the capacity is 0, and
    then it changes nothing: neither the allocator, whose aggregates may
    be those of an earlier solution, nor any item. *)
Theorem allocate_empty_iff (this : ItemAllocation.t) (h : store) (c : Q) :
  ItemAllocation._capacity this = Fin c -> (0 <= c)%Q ->
  total_strategy (strategy_in_effect this) ->
  exists allocation this' h',
    ItemAllocation.allocate this h = Ok (allocation, this', h') /\
    (allocation = [] <-> ItemAllocation.itemCount this = 0 \/ (c == 0)%Q) /\
    (allocation = [] -> this' = this /\ h' = h).
Proof.
  intros Hcap Hc Htotal. unfold ItemAllocation.allocate, ItemAllocation.itemCount.
  fold (strategy_in_effect this).
  destruct (ItemAllocation._items this) as [|item rest] eqn:Hitems.
  { exists [], this, h. split; [done|]. split; [|done]. split; eauto. }
  cbn [length Nat.eqb]. rewrite Hcap.
  destruct (num_eqb (Fin c) zero) eqn:Hz.
  { exists [], this, h. split; [done|]. split; [|done].
    apply num_eqb_Fin in Hz. split; eauto. }
  assert (Hpos : (0 < c)%Q).
  { apply not_true_iff_false in Hz. unfold zero in Hz.
    rewrite num_eqb_Fin in Hz.
    destruct (Qlt_le_dec 0 c); [done|]. exfalso. apply Hz. lra. }
  assert (Hnot : ~ (length (item :: rest) = 0 \/ (c == 0)%Q)).
  { intros [?|?]; [done | lra]. }
  destruct rest as [|item2 rest]; cbn [length Nat.eqb].
  - cbn [ItemAllocation._items ItemAllocation._data].
    destruct (Htotal h item (ItemAllocation._data this)) as [p ->].
    cbn [mbind result_bind]. eexists _, _, _. split; [reflexivity|].
    split; [|done]. split; [done | intros H; by destruct Hnot].
  - cbn [ItemAllocation._items ItemAllocation._data ItemAllocation._capacity
         ItemAllocation._strategy ItemAllocation._solutionPayoff].
    destruct (sort_from_spec (strategy_in_effect this) h
                (ItemAllocation._data this) (item :: item2 :: rest) [])
      as (items & Hsort & Hperm & _).
    { apply Forall_forall. intros r _. apply Htotal. }
    unfold sort. rewrite Hsort. cbn [mbind result_bind].
    match goal with
    | |- context [ItemAllocation.greedy _ items ?t ?s ?a] =>
        destruct (greedy_prefix _ items Htotal t s a)
          as (k & t' & s' & Hrun & _ & Hk)
    end.
    rewrite Hrun. eexists _, _, _. split; [reflexivity|].
    assert (Hne : items <> []).
    { intros ->. simpl in Hperm. by apply Permutation_nil_cons in Hperm. }
    assert (H0k : 0 < k).
    { apply Hk; [done|]. cbn. apply num_le_Fin_false.
      rewrite Qred_correct. lra. }
    assert (Hres : [] ++ take k items <> []).
    { destruct items; [done|]. destruct k; [lia|]. done. }
    split; [|done]. split; [done | intros H; by destruct Hnot].
Qed.

Lemma allocate_empty_iff_witness :
  ItemAllocation.allocate (continuous_of 0 2)
    (store_of [item_with 5 100; item_with 8 150])
  = Ok ([], continuous_of 0 2, store_of [item_with 5 100; item_with 8 150]).
Proof.
  destruct (allocate_empty_iff (continuous_of 0 2)
              (store_of [item_with 5 100; item_with 8 150]) 0 eq_refl
              (Qle_refl 0) default_strategy_total)
    as (allocation & this' & h' & Hrun & Hiff & Hsame).
  assert (Hnil : allocation = []).
  { apply Hiff. right. reflexivity. }
  destruct (Hsame Hnil) as [-> ->]. by rewrite Hrun, Hnil.
Defined.

(** X7.  The binary allocator with no item or capacity 0 returns no item
    and changes nothing.  With one item it returns the item when the
    capacity of the item is at most the capacity, and then the solution
    capacity and solution value of the item are its capacity and payoff;
    otherwise it returns no item and writes none.  In all these cases the
    payoff and the solution capacity of the allocator are left as they
    were, whatever the fuel. *)
Theorem binary_allocate_small (fuel : nat) (this : Knapsack.t) (h : store) :
  (Knapsack.itemCount this = 0 \/ Knapsack._capacity this = 0 ->
   Knapsack.allocate fuel this h = Ok ([], this, h)) /\
  (forall item,
     Knapsack._items this = [item] -> 0 < Knapsack._capacity this ->
     Item.wf (h item) ->
     if num_le (Item.capacity (h item)) (Knapsack.capacity this)
     then exists h',
       Knapsack.allocate fuel this h = Ok ([item], this, h') /\
       Item.solutionCapacity (h' item) = Item.capacity (h item) /\
       Item.solutionValue (h' item) = Item.payoff (h item) /\
       same_inputs (h' item) (h item) /\
       (forall r, r <> item -> h' r = h r)
     else Knapsack.allocate fuel this h = Ok ([], this, h)).
Proof.
  unfold Knapsack.allocate, Knapsack.itemCount. split.
  - intros [H|H].
    + by rewrite H.
    + rewrite H. by destruct (length _).
  - intros item Hitems Hcap Hwf. rewrite Hitems. cbn [length Nat.eqb].
    destruct (Nat.eqb_neq (Knapsack._capacity this) 0) as [_ ->]; [|lia].
    destruct (num_le _ _); [|done].
    eexists. split; [reflexivity|].
    destruct Hwf as [Hc Hp _ _ _ _].
    apply finite_nonneg_Fin in Hc as (c & Hc & Hc0).
    assert (Hgp : is_valid_nonneg (VNum (Item.payoff (h item))) = true).
    { apply finite_nonneg_Fin in Hp as (p & Hp & Hp0).
      apply is_valid_nonneg_number. exists p. split; [|done].
      f_equal. exact Hp. }
    unfold assign_solutionValue, assign_solutionCapacity.
    rewrite !update_eq.
    unfold Item.set_solutionValue, Item.set_solutionCapacity, Item.capacity,
      Item.payoff, Item.solutionCapacity, Item.solutionValue, same_inputs,
      Item.capacityRisk, Item.payoffRisk in *.
    cbn [Item._capacity Item._payoff Item._value Item._solutionCapacity
         Item._capacityRisk Item._payoffRisk Item.name Item.id].
    rewrite Hgp, Hc. cbn [is_valid is_null isNaN isFinite ToNumber is_nan
                          is_finite negb andb].
    split; [done|]. split; [done|]. split; [by repeat split|].
    intros r Hr. by rewrite !update_ne.
Qed.

Lemma binary_allocate_small_witness :
  Knapsack.allocate 0 (binary_of 5 1) (store_of [item_with 10 100])
    = Ok ([], binary_of 5 1, store_of [item_with 10 100]) /\
  Knapsack.allocate 0 (binary_of 0 3) (store_of []) =
    Ok ([], binary_of 0 3, store_of []).
Proof.
  destruct (binary_allocate_small 0 (binary_of 5 1)
              (store_of [item_with 10 100])) as [_ Hone].
  destruct (binary_allocate_small 0 (binary_of 0 3) (store_of [])) as [Hzero _].
  split.
  - assert (Hwf : Item.wf (store_of [item_with 10 100] 0)) by (by repeat split).
    assert (Hcap : 0 < Knapsack._capacity (binary_of 5 1)) by (vm_compute; lia).
    exact (Hone 0 eq_refl Hcap Hwf).
  - apply Hzero. by right.
Defined.

(** ** The items after the binary allocator *)

Lemma same_inputs_refl (a : Item.t) : same_inputs a a.
Proof. by repeat split. Qed.

(** Taking an item whole: the two assignments of the loop body. *)
Lemma take_whole (h0 h : store) (allocation : list ref) (r : ref) :
  is_finite (Item.capacity (h0 r)) = true ->
  Item.finite_nonneg (Item.payoff (h0 r)) ->
  taken_whole h0 allocation h ->
  taken_whole h0 (allocation ++ [r])
    (assign_solutionValue
       (assign_solutionCapacity h r (Item.capacity (h r))) r
       (Item.payoff (assign_solutionCapacity h r (Item.capacity (h r)) r))).
Proof.
  intros Hc Hp (Hin & Hout & Hsame).
  destruct (Hsame r) as (Hcr & Hpr & _).
  assert (Hgc : is_valid (VNum (Item.capacity (h r))) = true).
  { rewrite Hcr. destruct (Item.capacity (h0 r)); try done. }
  assert (Hgp : is_valid_nonneg (VNum (Item.payoff (h r))) = true).
  { rewrite Hpr. apply finite_nonneg_Fin in Hp as (p & -> & Hp0).
    apply is_valid_nonneg_number. eauto. }
  set (h1 := assign_solutionCapacity h r (Item.capacity (h r))).
  assert (H1 : h1 r = Item.set_solutionCapacity (h r) (VNum (Item.capacity (h r)))).
  { subst h1. unfold assign_solutionCapacity. by rewrite update_eq. }
  assert (Hp1 : Item.payoff (h1 r) = Item.payoff (h r)) by (by rewrite H1).
  rewrite Hp1.
  set (h2 := assign_solutionValue h1 r (Item.payoff (h r))).
  assert (H2 : h2 r = Item.set_solutionValue (h1 r) (VNum (Item.payoff (h r)))).
  { subst h2. unfold assign_solutionValue. by rewrite update_eq. }
  assert (Hother : forall r', r' <> r -> h2 r' = h r').
  { intros r' Hr'. subst h2 h1.
    unfold assign_solutionValue, assign_solutionCapacity.
    by rewrite !update_ne. }
  assert (Hr2 : Item.solutionCapacity (h2 r) = Item.capacity (h0 r) /\
                Item.solutionValue (h2 r) = Item.payoff (h0 r) /\
                same_inputs (h2 r) (h0 r)).
  { rewrite H2, H1. unfold Item.set_solutionValue, Item.set_solutionCapacity,
      Item.solutionCapacity, Item.solutionValue.
    cbn [Item._capacity Item._payoff Item._value Item._solutionCapacity
         Item._capacityRisk Item._payoffRisk Item.name Item.id].
    rewrite Hgc, Hgp. cbn [ToNumber].
    split; [done|]. split; [done|]. apply Hsame. }
  split; [|split].
  - intros r' [Hr'| ->%list_elem_of_singleton]%elem_of_app.
    + destruct (decide (r' = r)) as [->|Hne]; [by destruct Hr2 as (? & ? & _)|].
      rewrite Hother by done. by apply Hin.
    + by destruct Hr2 as (? & ? & _).
  - intros r' Hr'. apply not_elem_of_app in Hr' as [Hr' Hne].
    rewrite list_elem_of_singleton in Hne. rewrite Hother by done.
    by apply Hout.
  - intros r'. destruct (decide (r' = r)) as [->|Hne].
    + by destruct Hr2 as (_ & _ & ?).
    + rewrite Hother by done. apply Hsame.
Qed.

Lemma turn_taken_whole (h0 : store) (items : list ref) (value : table)
    (w w' : Knapsack.walk) :
  integral_items h0 items ->
  taken_whole h0 (Knapsack.w_allocation w) (Knapsack.w_store w) ->
  turn value items w w' ->
  taken_whole h0 (Knapsack.w_allocation w') (Knapsack.w_store w').
Proof.
  intros Hitems Htaken [_ Hstep]. unfold Knapsack.step in Hstep.
  destruct (Knapsack.w_i w) as [|i]; [done|].
  destruct (num_neqb _ _).
  - destruct (items !! i) as [r|] eqn:Hr; [|done].
    injection Hstep as <-. cbn [Knapsack.w_allocation Knapsack.w_store].
    unfold integral_items in Hitems. rewrite Forall_forall in Hitems.
    destruct (Hitems r) as [[wr Hw] Hp]; [by eapply list_elem_of_lookup_2|].
    apply take_whole; [by rewrite Hw|done..].
  - by injection Hstep as <-.
Qed.

Lemma nsteps_taken_whole (h0 : store) (items : list ref) (value : table)
    (j : nat) (w w' : Knapsack.walk) :
  integral_items h0 items ->
  nsteps (turn value items) j w w' ->
  taken_whole h0 (Knapsack.w_allocation w) (Knapsack.w_store w) ->
  taken_whole h0 (Knapsack.w_allocation w') (Knapsack.w_store w').
Proof.
  intros Hitems Hsteps. induction Hsteps as [|j w w1 w' Hturn _ IH]; [done|].
  intros H. apply IH. by eapply turn_taken_whole.
Qed.

(** X8.  With two items or more, natural numbers for the capacities of
    the items, payoffs that are finite and not negative, and a positive
    capacity, the binary allocator takes every item it returns whole: in
    the store it leaves, the solution capacity and the solution value of
    a returned item are the capacity and the payoff of the item, an item
    that is not returned is exactly as it was, and the capacity, payoff,
    risks, name and id of every item are unchanged.  The returned items
    fit in the capacity together. *)
Theorem binary_allocate_takes_whole
    (fuel : nat) (this : Knapsack.t) (h : store) :
  2 <= Knapsack.itemCount this ->
  0 < Knapsack._capacity this ->
  integral_items h (Knapsack._items this) ->
  Knapsack.itemCount this <= fuel ->
  exists allocation this' h',
    Knapsack.allocate fuel this h = Ok (allocation, this', h') /\
    taken_whole h allocation h' /\
    total_weight h allocation <= Knapsack._capacity this.
Proof.
  intros Hcount Hcap Hitems Hfuel. unfold Knapsack.itemCount in *.
  set (items := Knapsack._items this) in *.
  set (C := Knapsack._capacity this) in *.
  destruct (fill_rows_table items h (C + 1)) as (value & Hfill & _ & Hvalue).
  pose proof (start_inv h _ _ value Hvalue) as Hstart.
  destruct (backtrack_run h _ _ value Hitems Hvalue _ Hstart)
    as (j & w' & positions & picked & Hj & Hsteps & _ & Hrun & Happ & _).
  destruct (backtrack_account h _ _ value Hitems Hvalue _ Hstart)
    as (j2 & w2 & picked2 & Hj2 & Hrun2 & Happ2 & _ & _ & c & Hc & Hweight).
  cbn [Knapsack.w_i Knapsack.w_allocation Knapsack.w_capacity] in *.
  assert (Hsame : w2 = w').
  { pose proof (Hrun fuel ltac:(lia)) as H1.
    pose proof (Hrun2 fuel ltac:(lia)) as H2. congruence. }
  subst w2. rewrite Happ in Happ2. simpl in Happ2. subst picked2.
  assert (HcC : c = C).
  { apply (f_equal index_of) in Hc. rewrite !index_of_of_nat in Hc.
    by injection Hc. }
  subst c.
  assert (Htaken : taken_whole h (Knapsack.w_allocation w') (Knapsack.w_store w')).
  { eapply nsteps_taken_whole; [exact Hitems | exact Hsteps |].
    cbn. split; [by intros r ?%elem_of_nil|].
    split; [done | intros r; apply same_inputs_refl]. }
  unfold Knapsack.allocate. fold items C.
  destruct (Nat.eqb_neq (length items) 0) as [_ ->]; [|lia].
  destruct (Nat.eqb_neq C 0) as [_ ->]; [|lia].
  destruct (Nat.eqb_neq (length items) 1) as [_ ->]; [|lia].
  rewrite Hfill. cbn [mbind result_bind Knapsack._items Knapsack._solutionPayoff].
  rewrite !Nat.add_sub, (Hrun fuel) by lia. cbn [mbind result_bind].
  eexists _, _, _. split; [reflexivity|].
  rewrite Happ in *. by split.
Qed.

Lemma binary_allocate_takes_whole_witness :
  exists this' h',
    Knapsack.allocate 4 (binary_of 10 4)
      (store_of [item_with 5 10; item_with 4 40; item_with 6 30; item_with 3 50])
      = Ok ([3; 1], this', h') /\
    Item.solutionCapacity (h' 3) = Fin 3 /\
    Item.solutionValue (h' 1) = Fin 40 /\
    h' 0 = item_with 5 10.
Proof.
  assert (Hcount : 2 <= Knapsack.itemCount (binary_of 10 4))
    by (vm_compute; lia).
  assert (Hcap : 0 < Knapsack._capacity (binary_of 10 4))
    by (vm_compute; lia).
  assert (Hfuel : Knapsack.itemCount (binary_of 10 4) <= 4)
    by (vm_compute; lia).
  destruct (binary_allocate_takes_whole 4 (binary_of 10 4) _
              Hcount Hcap integral_items_example Hfuel)
    as (allocation & this' & h' & Hrun & (Hin & Hout & _) & _).
  destruct binary_example as (k & s & Hex & _).
  pose proof Hrun as Hrun'. rewrite Hex in Hrun'.
  injection Hrun' as Ha _ _. subst allocation.
  exists this', h'. split; [exact Hrun|].
  split; [|split].
  - destruct (Hin 3) as [-> _]; [repeat constructor | reflexivity].
  - destruct (Hin 1) as [_ ->]; [repeat constructor | reflexivity].
  - rewrite Hout; [reflexivity|].
    intros H%list_elem_of_In. simpl in H. lia.
Defined.

(** ** The continuous allocator: Dantzig's greedy filling *)

(** *** Fractional selections *)












(** *** One turn of the loop under the default strategy *)





Section Turn.

Context (this : ItemAllocation.t) (h : store) (C s pay : Q).
Hypothesis Hcap : ItemAllocation._capacity this = Fin C.
Hypothesis Hsc : ItemAllocation._solutionCapacity this = Fin s.
Hypothesis Hpay : ItemAllocation._solutionPayoff this = Fin pay.




End Turn.









(** *** The call as a whole *)















(** *** A second call *)








